(** * YASM core: bytecode lists and the symbol table

    A shallow embedding of the bytecode utility functions and of the
    symbol table (symrec.c), and the properties of the two components.

    Conventions of the embedding:
    - a C pointer [T *] is an [option T]; [None] is [NULL];
    - [enum] values and [unsigned long] are [Z]; flag words are combined
      with [Z.lor] and tested with [Z.land], as the C code does;
    - a function that writes through a pointer returns the new content;
    - calls into other components (diagnostics, printing, deallocation)
      are recorded, in call order, in a list. *)

From stdpp Require Import gmap strings list fin_maps.
From Stdlib Require Import ZArith Lia Ascii.
Open Scope Z_scope.

(** ** Collaborators outside these two components

    The expression component, the section list, the object format and the
    architecture backend are only reached through pointers and calls.  Their
    types and the one constructor used here are parameters. *)
Class Externals := {
  (** expr.h: expression trees *)
  expr : Type;
  ExprOp : Type;
  EXPR_MUL : ExprOp;
  (** [expr_new_tree(l, op, r)]: a freshly allocated tree node *)
  expr_new_tree : option expr -> ExprOp -> option expr -> expr;
  (** section.h *)
  section : Type;
  (** objfmt.h: the object format, and the payloads it attaches to symbols
      ([void *of_data]) *)
  objfmt : Type;
  of_data : Type;
  (** the architecture's own bytecode contents *)
  arch_data : Type;
  (** limits.h *)
  ULONG_MAX : Z
}.

(** Arguments of a printf-like call, after the format. *)
Inductive fmt_arg :=
| ArgStr (s : string)
| ArgNum (n : Z).

(** The C escape for a line feed, as it appears inside format literals. *)
Definition nl : string := String "010"%char EmptyString.

(* ================================================================= *)
(** ** Bytecodes and data values *)

Module Bytecode.
Section Defs.
Context `{X : Externals}.

(** [struct dataval]: the [type] tag and the [data] union it selects. *)
Inductive dataval :=
| DV_EMPTY
| DV_EXPR (expn : option expr)
| DV_STRING (str_val : string).

(** [datavalhead] and [bytecodehead] are STAILQ heads; a tail queue is the
    list of its nodes from first to last. *)
Definition datavalhead := list dataval.

Record bytecode_data := {
  datahead : datavalhead;
  size : Z
}.

Record bytecode_reserve := {
  numitems : option expr;
  itemsize : Z
}.

(** The bytes that follow the common header of a bytecode
    ([bc_get_data]); [BcRaw] is what [bc_new_common] leaves there. *)
Inductive bc_contents :=
| BcRaw
| BcData (d : bytecode_data)
| BcReserve (r : bytecode_reserve)
| BcArch (p : arch_data).

(** Modelled from the spec: the [bytecode_type] enum is declared in
    bytecode.h, which is not among the sources; the three built-in kinds
    come first, in the order [Empty], [Data], [Reserve], and the tags of an
    architecture follow them. *)
Definition BC_EMPTY : Z := 0.
Definition BC_DATA : Z := 1.
Definition BC_RESERVE : Z := 2.

(** The common header of [struct bytecode] (bytecode.h), followed by its
    contents. *)
Record bytecode := {
  type : Z;
  multiple : option expr;
  len : Z;
  filename : option string;
  lineno : Z;
  offset : Z;
  contents : bc_contents
}.

Definition bytecodehead := list bytecode.

(** Deallocations, in call order. *)
Inductive release :=
| ExprDelete (e : option expr)
| XfreeStr (s : string)
| XfreeDataval (dv : dataval)
| XfreeBytecode (bc : bytecode).

(** What is written to a [FILE *], in call order. *)
Inductive output :=
| Fprintf (fmt : string) (args : list fmt_arg)
| ExprPrint (e : option expr).

(** Modelled from the spec: [InternalError] (errwarn.h is not among the
    sources) is the fatal tier: it aborts the run and does not return. *)
Inductive result (A : Type) :=
| Ok (a : A)
| InternalError (msg : string).
Global Arguments Ok {A} a.
Global Arguments InternalError {A} msg.

(** [cur_arch->bc]: the part of the architecture's dispatch table used
    here.  An entry receives the bytecode and may rewrite it or abort. *)
Record arch := {
  type_max : Z;
  arch_bc_parser_finalize : bytecode -> result bytecode
}.

Definition set_multiple (bc : bytecode) (m : option expr) : bytecode :=
  {| type := type bc; multiple := m; len := len bc;
     filename := filename bc; lineno := lineno bc; offset := offset bc;
     contents := contents bc |}.

Definition set_contents (bc : bytecode) (c : bc_contents) : bytecode :=
  {| type := type bc; multiple := multiple bc; len := len bc;
     filename := filename bc; lineno := lineno bc; offset := offset bc;
     contents := c |}.

Definition bc_set_multiple (bc : bytecode) (e : option expr) : bytecode :=
  match multiple bc with
  | Some _ => set_multiple bc (Some (expr_new_tree (multiple bc) EXPR_MUL e))
  | None => set_multiple bc e
  end.

(** [in_filename] and [line_number] are the globals of globals.h. *)
Definition bc_new_common (in_filename : option string) (line_number : Z)
    (type : Z) : bytecode :=
  {| type := type; multiple := None; len := 0;
     filename := in_filename; lineno := line_number; offset := 0;
     contents := BcRaw |}.

Definition bc_new_data (in_filename : option string) (line_number : Z)
    (datahead : datavalhead) (size : Z) : bytecode :=
  let bc := bc_new_common in_filename line_number BC_DATA in
  set_contents bc (BcData {| datahead := datahead; size := size |}).

Definition bc_new_reserve (in_filename : option string) (line_number : Z)
    (numitems : option expr) (itemsize : Z) : bytecode :=
  let bc := bc_new_common in_filename line_number BC_RESERVE in
  set_contents bc (BcReserve {| numitems := numitems; itemsize := itemsize |}).

(** The returned pair is the [int] result and the content of [*ret_val]
    after the call. *)
Definition bc_get_offset (sect : option section) (bc : option bytecode)
    (ret_val : Z) : Z * Z :=
  (0, ret_val).

(** The [switch] has the cases [BC_EMPTY] and [default] only.  The
    [BC_EMPTY] case has no [break], but [InternalError] does not return. *)
Definition bc_parser_finalize (cur_arch : arch) (bc : bytecode)
    : result bytecode :=
  if type bc =? BC_EMPTY then
    InternalError "got empty bytecode in parser_finalize"
  else if type bc <? type_max cur_arch then
    arch_bc_parser_finalize cur_arch bc
  else
    InternalError "Unknown bytecode type".

(** Returns the pointer result, the list and the deallocations made. *)
Definition bcs_append (headp : bytecodehead) (bc : option bytecode)
    : option bytecode * bytecodehead * list release :=
  match bc with
  | Some b =>
      if negb (type b =? BC_EMPTY) then (Some b, headp ++ [b], [])
      else (None, headp, [XfreeBytecode b])
  | None => (None, headp, [])
  end.

Fixpoint bcs_parser_finalize (cur_arch : arch) (headp : bytecodehead)
    : result bytecodehead :=
  match headp with
  | [] => Ok []
  | cur :: next =>
      match bc_parser_finalize cur_arch cur with
      | Ok cur' =>
          match bcs_parser_finalize cur_arch next with
          | Ok next' => Ok (cur' :: next')
          | InternalError msg => InternalError msg
          end
      | InternalError msg => InternalError msg
      end
  end.

Definition dv_new_expr (expn : option expr) : dataval := DV_EXPR expn.

Definition dv_new_string (str_val : string) : dataval := DV_STRING str_val.

(** The walk of [dvs_delete] from [cur] to the end of the queue. *)
Fixpoint dvs_delete_from (cur : list dataval) : list release :=
  match cur with
  | [] => []
  | c :: next =>
      match c with
      | DV_EXPR expn => [ExprDelete expn]
      | DV_STRING str_val => [XfreeStr str_val]
      | DV_EMPTY => []
      end ++ XfreeDataval c :: dvs_delete_from next
  end.

(** Returns the head after [STAILQ_INIT] and the deallocations made. *)
Definition dvs_delete (headp : datavalhead) : datavalhead * list release :=
  ([], dvs_delete_from headp).

Definition dvs_append (headp : datavalhead) (dv : option dataval)
    : option dataval * datavalhead :=
  match dv with
  | Some d => (Some d, headp ++ [d])
  | None => (None, headp)
  end.

(** What [dvs_print] writes for one node; [indent_level] is the global of
    globals.h. *)
Definition dv_print (indent_level : Z) (cur : dataval) : list output :=
  match cur with
  | DV_EMPTY =>
      [Fprintf ("%*sEmpty" +:+ nl) [ArgNum indent_level; ArgStr ""]]
  | DV_EXPR expn =>
      [Fprintf "%*sExpr=" [ArgNum indent_level; ArgStr ""];
       ExprPrint expn;
       Fprintf nl []]
  | DV_STRING str_val =>
      [Fprintf ("%*sString=%s" +:+ nl)
         [ArgNum indent_level; ArgStr ""; ArgStr str_val]]
  end.

Fixpoint dvs_print (indent_level : Z) (head : datavalhead) : list output :=
  match head with
  | [] => []
  | cur :: next => dv_print indent_level cur ++ dvs_print indent_level next
  end.

(** Appending a run of bytecodes, one call of [bcs_append] each. *)
Definition bcs_append_all (headp : bytecodehead) (bcs : list bytecode)
    : bytecodehead :=
  fold_left (fun h bc => (bcs_append h (Some bc)).1.2) bcs headp.

(** Appending a run of data values, one call of [dvs_append] each. *)
Definition dvs_append_all (headp : datavalhead) (dvs : list dataval)
    : datavalhead :=
  fold_left (fun h dv => (dvs_append h (Some dv)).2) dvs headp.

(** *** Deletion and the finalize pass over a list *)

(** The contents of a bytecode read as [bytecode_data] or as
    [bytecode_reserve] ([bc_get_data]).  [None]: the contents were written
    at another type; the embedding gives such a read no value. *)
Definition bc_get_data_data (bc : bytecode) : option bytecode_data :=
  match contents bc with
  | BcData d => Some d
  | _ => None
  end.

Definition bc_get_data_reserve (bc : bytecode) : option bytecode_reserve :=
  match contents bc with
  | BcReserve r => Some r
  | _ => None
  end.

(** The [switch] of [bc_delete].  [arch_bc_delete] is the dispatch table's
    entry [cur_arch->bc.bc_delete]: what it releases, or its abort. *)
Definition bc_delete_contents (cur_arch : arch)
    (arch_bc_delete : bytecode -> result (list release)) (bc : bytecode)
    : option (result (list release)) :=
  if type bc =? BC_EMPTY then Some (Ok [])
  else if type bc =? BC_DATA then
    match bc_get_data_data bc with
    | Some data => Some (Ok (dvs_delete (datahead data)).2)
    | None => None
    end
  else if type bc =? BC_RESERVE then
    match bc_get_data_reserve bc with
    | Some reserve => Some (Ok [ExprDelete (numitems reserve)])
    | None => None
    end
  else if type bc <? type_max cur_arch then Some (arch_bc_delete bc)
  else Some (InternalError "Unknown bytecode type").

(** The deallocations of [bc_delete], or its abort; [XfreeBytecode] names
    the node as it was passed in. *)
Definition bc_delete (cur_arch : arch)
    (arch_bc_delete : bytecode -> result (list release))
    (bc : option bytecode) : option (result (list release)) :=
  match bc with
  | None => Some (Ok [])
  | Some b =>
      match bc_delete_contents cur_arch arch_bc_delete b with
      | Some (Ok rel) =>
          Some (Ok (rel ++ [ExprDelete (multiple b); XfreeBytecode b]))
      | Some (InternalError msg) => Some (InternalError msg)
      | None => None
      end
  end.

(** The walk of [bcs_delete] from [cur] to the end of the queue. *)
Fixpoint bcs_delete_from (cur_arch : arch)
    (arch_bc_delete : bytecode -> result (list release))
    (cur : list bytecode) : option (result (list release)) :=
  match cur with
  | [] => Some (Ok [])
  | c :: next =>
      match bc_delete cur_arch arch_bc_delete (Some c) with
      | Some (Ok rel) =>
          match bcs_delete_from cur_arch arch_bc_delete next with
          | Some (Ok rel') => Some (Ok (rel ++ rel'))
          | other => other
          end
      | other => other
      end
  end.

(** Returns the head after [STAILQ_INIT] and the deallocations made. *)
Definition bcs_delete (cur_arch : arch)
    (arch_bc_delete : bytecode -> result (list release))
    (headp : bytecodehead) : option (result (bytecodehead * list release)) :=
  match bcs_delete_from cur_arch arch_bc_delete headp with
  | Some (Ok rel) => Some (Ok ([], rel))
  | Some (InternalError msg) => Some (InternalError msg)
  | None => None
  end.

(** A run of [bc_set_multiple] calls on one bytecode. *)
Definition bc_set_multiple_all (bc : bytecode) (es : list (option expr))
    : bytecode :=
  fold_left bc_set_multiple es bc.

(** *** Reading deallocation lists and lists of bytecodes *)

Definition is_xfree_bytecode (r : release) : bool :=
  match r with
  | XfreeBytecode _ => true
  | _ => false
  end.

Definition is_xfree_dataval (r : release) : bool :=
  match r with
  | XfreeDataval _ => true
  | _ => false
  end.

(** A [Data] or [Reserve] bytecode with the contents its constructor
    wrote. *)
Definition builtin_wf (bc : bytecode) : bool :=
  match contents bc with
  | BcData _ => type bc =? BC_DATA
  | BcReserve _ => type bc =? BC_RESERVE
  | _ => false
  end.

(** The data values a bytecode owns. *)
Definition bc_values (bc : bytecode) : list dataval :=
  match contents bc with
  | BcData d => datahead d
  | _ => []
  end.

(** What [bc_delete] releases for a well-formed built-in bytecode. *)
Definition builtin_releases (bc : bytecode) : list release :=
  match contents bc with
  | BcData d => dvs_delete_from (datahead d)
  | BcReserve r => [ExprDelete (numitems r)]
  | _ => []
  end ++ [ExprDelete (multiple bc); XfreeBytecode bc].

(** The dispatch table's finalize entry applied along a list, stopping at
    the first abort. *)
Fixpoint arch_finalize_all (cur_arch : arch) (l : list bytecode)
    : result (list bytecode) :=
  match l with
  | [] => Ok []
  | b :: rest =>
      match arch_bc_parser_finalize cur_arch b with
      | Ok b' =>
          match arch_finalize_all cur_arch rest with
          | Ok rest' => Ok (b' :: rest')
          | InternalError msg => InternalError msg
          end
      | InternalError msg => InternalError msg
      end
  end.

End Defs.
End Bytecode.

(* ================================================================= *)
(** ** The symbol table *)

Module Symrec.
Section Defs.
Context `{X : Externals}.

(** [SymStatus]: flag bits. *)
Definition SYM_NOSTATUS : Z := 0.
Definition SYM_USED : Z := Z.shiftl 1 0.
Definition SYM_DEFINED : Z := Z.shiftl 1 1.
Definition SYM_VALUED : Z := Z.shiftl 1 2.
Definition SYM_NOTINTABLE : Z := Z.shiftl 1 3.

Inductive SymType :=
| SYM_UNKNOWN
| SYM_EQU
| SYM_LABEL.

(** Modelled from the spec: the [SymVisibility] enum is declared in a
    header that is not among the sources; visibility is a bit set over
    Global, Common and Extern, and Local is the empty set. *)
Definition SYM_LOCAL : Z := 0.
Definition SYM_GLOBAL : Z := Z.shiftl 1 0.
Definition SYM_COMMON : Z := Z.shiftl 1 1.
Definition SYM_EXTERN : Z := Z.shiftl 1 2.

(** The [value] union holds what was written to it last; the [type] field
    of the record is kept apart from it, as in the struct.  [ValRaw] is the
    union of a record that [symrec_get_or_new] has just allocated. *)
Inductive symval :=
| ValRaw
| ValExpn (expn : option expr)
| ValLabel (sect : option section) (bc : option Bytecode.bytecode).

Record symrec := {
  name : string;
  type : SymType;
  status : Z;
  visibility : Z;
  filename : option string;
  line : Z;
  value : symval;
  of_data_vis_ce : option of_data;
  of_data_vis_g : option of_data
}.

(** One entry of the diagnostics sink: where it is attributed, the message
    template and its arguments. *)
Record errwarn := {
  we_filename : option string;
  we_line : Z;
  we_fmt : string;
  we_args : list fmt_arg
}.

(** The process-wide state the symbol table reads and writes: the table
    ([sym_table]), the source position (globals.h), the object format in
    use, the two statics of the finalize pass, the diagnostics sink, and
    the calls made to [cur_objfmt->declare_data_delete]. *)
Record state := {
  sym_table : gmap string symrec;
  in_filename : option string;
  line_number : Z;
  cur_objfmt : option objfmt;
  firstundef_line : Z;
  firstundef_filename : option string;
  errwarns : list errwarn;
  data_deleted : list (Z * of_data)
}.

(** A call either returns, or aborts the run with a message; both leave a
    state behind. *)
Inductive outcome (A : Type) :=
| Returns (a : A) (st : state)
| Aborts (msg : string) (st : state).
Global Arguments Returns {A} a st.
Global Arguments Aborts {A} msg st.

Definition final_state {A : Type} (o : outcome A) : state :=
  match o with
  | Returns _ st => st
  | Aborts _ st => st
  end.

(** *** Field updates *)

Definition set_type (rec : symrec) (t : SymType) : symrec :=
  {| name := name rec; type := t; status := status rec;
     visibility := visibility rec; filename := filename rec;
     line := line rec; value := value rec;
     of_data_vis_ce := of_data_vis_ce rec;
     of_data_vis_g := of_data_vis_g rec |}.

Definition set_status (rec : symrec) (s : Z) : symrec :=
  {| name := name rec; type := type rec; status := s;
     visibility := visibility rec; filename := filename rec;
     line := line rec; value := value rec;
     of_data_vis_ce := of_data_vis_ce rec;
     of_data_vis_g := of_data_vis_g rec |}.

Definition set_visibility (rec : symrec) (v : Z) : symrec :=
  {| name := name rec; type := type rec; status := status rec;
     visibility := v; filename := filename rec;
     line := line rec; value := value rec;
     of_data_vis_ce := of_data_vis_ce rec;
     of_data_vis_g := of_data_vis_g rec |}.

Definition set_line (rec : symrec) (l : Z) : symrec :=
  {| name := name rec; type := type rec; status := status rec;
     visibility := visibility rec; filename := filename rec;
     line := l; value := value rec;
     of_data_vis_ce := of_data_vis_ce rec;
     of_data_vis_g := of_data_vis_g rec |}.

Definition set_value (rec : symrec) (v : symval) : symrec :=
  {| name := name rec; type := type rec; status := status rec;
     visibility := visibility rec; filename := filename rec;
     line := line rec; value := v;
     of_data_vis_ce := of_data_vis_ce rec;
     of_data_vis_g := of_data_vis_g rec |}.

Definition set_of_data_vis_ce (rec : symrec) (d : option of_data) : symrec :=
  {| name := name rec; type := type rec; status := status rec;
     visibility := visibility rec; filename := filename rec;
     line := line rec; value := value rec;
     of_data_vis_ce := d;
     of_data_vis_g := of_data_vis_g rec |}.

Definition set_of_data_vis_g (rec : symrec) (d : option of_data) : symrec :=
  {| name := name rec; type := type rec; status := status rec;
     visibility := visibility rec; filename := filename rec;
     line := line rec; value := value rec;
     of_data_vis_ce := of_data_vis_ce rec;
     of_data_vis_g := d |}.

Definition set_sym_table (st : state) (t : gmap string symrec) : state :=
  {| sym_table := t; in_filename := in_filename st;
     line_number := line_number st; cur_objfmt := cur_objfmt st;
     firstundef_line := firstundef_line st;
     firstundef_filename := firstundef_filename st;
     errwarns := errwarns st; data_deleted := data_deleted st |}.

Definition set_location (st : state) (f : option string) (l : Z) : state :=
  {| sym_table := sym_table st; in_filename := f;
     line_number := l; cur_objfmt := cur_objfmt st;
     firstundef_line := firstundef_line st;
     firstundef_filename := firstundef_filename st;
     errwarns := errwarns st; data_deleted := data_deleted st |}.

Definition set_firstundef (st : state) (l : Z) (f : option string) : state :=
  {| sym_table := sym_table st; in_filename := in_filename st;
     line_number := line_number st; cur_objfmt := cur_objfmt st;
     firstundef_line := l;
     firstundef_filename := f;
     errwarns := errwarns st; data_deleted := data_deleted st |}.

Definition set_errwarns (st : state) (l : list errwarn) : state :=
  {| sym_table := sym_table st; in_filename := in_filename st;
     line_number := line_number st; cur_objfmt := cur_objfmt st;
     firstundef_line := firstundef_line st;
     firstundef_filename := firstundef_filename st;
     errwarns := l; data_deleted := data_deleted st |}.

Definition set_data_deleted (st : state) (l : list (Z * of_data)) : state :=
  {| sym_table := sym_table st; in_filename := in_filename st;
     line_number := line_number st; cur_objfmt := cur_objfmt st;
     firstundef_line := firstundef_line st;
     firstundef_filename := firstundef_filename st;
     errwarns := errwarns st; data_deleted := l |}.

(** *** Calls into the collaborators *)

(** Modelled from the spec: [ErrorAt] and [Error] (errwarn.h is not among
    the sources) append one entry to the diagnostics sink and return;
    [Error] attributes it to the current source position. *)
Definition ErrorAt (f : option string) (l : Z) (fmt : string)
    (args : list fmt_arg) (st : state) : state :=
  set_errwarns st
    (errwarns st ++
     [{| we_filename := f; we_line := l; we_fmt := fmt; we_args := args |}]).

Definition Error (fmt : string) (args : list fmt_arg) (st : state) : state :=
  ErrorAt (in_filename st) (line_number st) fmt args st.

(** [cur_objfmt->declare_data_delete(vis, of_data)] *)
Definition declare_data_delete (vis : Z) (d : of_data) (st : state) : state :=
  set_data_deleted st (data_deleted st ++ [(vis, d)]).

(** Modelled from the spec: [ternary_insert] (ternary.h is not among the
    sources), called with [replace = 0], is insert-or-fetch: it returns the
    record already stored under the key, or stores [data].  [None] stands
    for the result being [data] itself. *)
Definition ternary_insert (root : gmap string symrec) (s : string)
    (data : symrec) : option symrec * gmap string symrec :=
  match root !! s with
  | Some found => (Some found, root)
  | None => (None, <[s := data]> root)
  end.

(** Modelled from the spec: [ternary_traverse] calls the visitor on every
    stored record once, in the table's own order, and stops with result 0
    as soon as the visitor returns 0. *)
Fixpoint ternary_traverse_from {D : Type} (syms : list symrec) (d : D)
    (func : symrec -> D -> state -> Z * state) (st : state) : Z * state :=
  match syms with
  | [] => (1, st)
  | sym :: rest =>
      let '(r, st') := func sym d st in
      if r =? 0 then (0, st') else ternary_traverse_from rest d func st'
  end.

Definition ternary_traverse {D : Type} (root : gmap string symrec) (d : D)
    (func : symrec -> D -> state -> Z * state) (st : state) : Z * state :=
  ternary_traverse_from (map_to_list root).*2 d func st.

(** *** symrec.c *)

(** A write through a [symrec *]: it reaches the table when the record is
    the one stored under [name]. *)
Definition sym_write (in_table : bool) (name : string) (rec : symrec)
    (st : state) : state :=
  if in_table then set_sym_table st (<[name := rec]> (sym_table st)) else st.

Definition symrec_new (nm : string) (st : state) (s : Z) : symrec :=
  {| name := nm; type := SYM_UNKNOWN; status := s;
     visibility := SYM_LOCAL; filename := in_filename st;
     line := line_number st; value := ValRaw;
     of_data_vis_ce := None; of_data_vis_g := None |}.

Definition symrec_get_or_new (name : string) (in_table : bool) (st : state)
    : symrec * state :=
  if in_table then
    let rec := symrec_new name st SYM_NOSTATUS in
    match ternary_insert (sym_table st) name rec with
    | (Some rec2, _) => (rec2, st)
    | (None, root) => (rec, set_sym_table st root)
    end
  else
    (symrec_new name st SYM_NOTINTABLE, st).

Definition symrec_traverse {D : Type} (d : D)
    (func : symrec -> D -> state -> Z * state) (st : state) : Z * state :=
  ternary_traverse (sym_table st) d func st.

Definition symrec_use (name : string) (st : state) : symrec * state :=
  let '(rec, st) := symrec_get_or_new name true st in
  let rec := set_status rec (Z.lor (status rec) SYM_USED) in
  (rec, sym_write true name rec st).

Definition duplicate_fmt : string :=
  "duplicate definition of `%s'; first defined on line %d".

Definition symrec_define (name : string) (type : SymType) (in_table : bool)
    (st : state) : symrec * state :=
  let '(rec, st) := symrec_get_or_new name in_table st in
  if negb (Z.land (status rec) SYM_DEFINED =? 0) then
    (rec, Error duplicate_fmt [ArgStr name; ArgNum (line rec)] st)
  else
    let rec := set_line rec (line_number st) in
    let rec := set_type rec type in
    let rec := set_status rec (Z.lor (status rec) SYM_DEFINED) in
    (rec, sym_write in_table name rec st).

Definition symrec_define_equ (name : string) (e : option expr) (st : state)
    : symrec * state :=
  let '(rec, st) := symrec_define name SYM_EQU true st in
  let rec := set_value rec (ValExpn e) in
  let rec := set_status rec (Z.lor (status rec) SYM_VALUED) in
  (rec, sym_write true name rec st).

Definition symrec_define_label (name : string) (sect : option section)
    (precbc : option Bytecode.bytecode) (in_table : bool) (st : state)
    : symrec * state :=
  let '(rec, st) := symrec_define name SYM_LABEL in_table st in
  let rec := set_value rec (ValLabel sect precbc) in
  (rec, sym_write in_table name rec st).

(** The condition under which [symrec_declare] refuses the declaration. *)
Definition declare_conflict (rec : symrec) (vis : Z) : bool :=
  (negb (Z.land (status rec) SYM_DEFINED =? 0)
     && (Z.land (visibility rec) SYM_EXTERN =? 0))
  || (negb (Z.land (visibility rec) SYM_COMMON =? 0) && (vis =? SYM_EXTERN))
  || (negb (Z.land (visibility rec) SYM_EXTERN =? 0) && (vis =? SYM_COMMON)).

Definition symrec_declare (name : string) (vis : Z)
    (of_data : option of_data) (st : state) : outcome symrec :=
  let '(rec, st) := symrec_get_or_new name true st in
  match cur_objfmt st with
  | None => Aborts "assert(cur_objfmt != NULL)" st
  | Some _ =>
      if declare_conflict rec vis then
        let st := Error duplicate_fmt [ArgStr name; ArgNum (line rec)] st in
        match of_data with
        | Some d => Returns rec (declare_data_delete vis d st)
        | None => Returns rec st
        end
      else
        let rec := set_line rec (line_number st) in
        let rec := set_visibility rec (Z.lor (visibility rec) vis) in
        let rec :=
          if (vis =? SYM_COMMON) || (vis =? SYM_EXTERN)
          then set_status rec (Z.lor (status rec) SYM_DEFINED)
          else rec in
        match of_data with
        | Some d =>
            if vis =? SYM_GLOBAL then
              let rec := set_of_data_vis_g rec (Some d) in
              Returns rec (sym_write true name rec st)
            else if (vis =? SYM_COMMON) || (vis =? SYM_EXTERN) then
              let rec := set_of_data_vis_ce rec (Some d) in
              Returns rec (sym_write true name rec st)
            else
              Aborts "Unexpected vis value" (sym_write true name rec st)
        | None => Returns rec (sym_write true name rec st)
        end
  end.

Definition undefined_fmt : string := "undefined symbol `%s' (first use)".

Definition once_fmt : string :=
  " (Each undefined symbol is reported only once.)".

Definition symrec_parser_finalize_checksym {D : Type} (sym : symrec) (d : D)
    (st : state) : Z * state :=
  if negb (Z.land (status sym) SYM_USED =? 0)
     && (Z.land (status sym) SYM_DEFINED =? 0) then
    let st := ErrorAt (filename sym) (line sym) undefined_fmt
                [ArgStr (name sym)] st in
    if line sym <? firstundef_line st then
      (1, set_firstundef st (line sym) (filename sym))
    else (1, st)
  else (1, st).

Definition symrec_parser_finalize (st : state) : state :=
  let st := set_firstundef st ULONG_MAX (firstundef_filename st) in
  let '(_, st) :=
    symrec_traverse (None : option unit) symrec_parser_finalize_checksym st in
  if firstundef_line st <? ULONG_MAX then
    ErrorAt (firstundef_filename st) (firstundef_line st) once_fmt [] st
  else st.

(** The record a table call on [n] starts from: the stored one, or a new
    one. *)
Definition entry (n : string) (st : state) : symrec :=
  default (symrec_new n st SYM_NOSTATUS) (sym_table st !! n).

(** The record [symrec_define] leaves when the name was not defined. *)
Definition defined_rec (r : symrec) (ty : SymType) (st : state) : symrec :=
  set_status (set_type (set_line r (line_number st)) ty)
    (Z.lor (status r) SYM_DEFINED).

(** The record [symrec_define_equ] leaves, from the one [symrec_define]
    returned. *)
Definition valued_rec (r : symrec) (e : option expr) : symrec :=
  set_status (set_value r (ValExpn e)) (Z.lor (status r) SYM_VALUED).

(** The record [symrec_declare] leaves when it accepts the declaration,
    before the payload is stored. *)
Definition declared_rec (r : symrec) (vis : Z) (st : state) : symrec :=
  let rec := set_line r (line_number st) in
  let rec := set_visibility rec (Z.lor (visibility rec) vis) in
  if (vis =? SYM_COMMON) || (vis =? SYM_EXTERN)
  then set_status rec (Z.lor (status rec) SYM_DEFINED)
  else rec.

(** The duplicate-definition diagnostic for [n], reported at position
    [(f, l)] and citing line [first]. *)
Definition duplicate_report (f : option string) (l : Z) (n : string)
    (first : Z) : errwarn :=
  {| we_filename := f; we_line := l; we_fmt := duplicate_fmt;
     we_args := [ArgStr n; ArgNum first] |}.

(** The destructor calls a refused declaration makes for its payload. *)
Definition payload_destroyed (vis : Z) (d : option of_data)
    : list (Z * of_data) :=
  match d with
  | Some x => [(vis, x)]
  | None => []
  end.

(** What a first [Common] or [Extern] declaration makes of a new name. *)
Definition first_declared (n : string) (vis : Z) (d : option of_data)
    (st : state) : symrec :=
  {| name := n; type := SYM_UNKNOWN; status := SYM_DEFINED;
     visibility := vis; filename := in_filename st;
     line := line_number st; value := ValRaw;
     of_data_vis_ce := d; of_data_vis_g := None |}.

(** *** A translation run, as the symbol table sees it

    The table starts empty; the parser moves the source position and calls
    the entry points, and the run stops at the first abort. *)

Definition initial_state (f : option string) (l : Z) (o : option objfmt)
    : state :=
  {| sym_table := ∅; in_filename := f; line_number := l; cur_objfmt := o;
     firstundef_line := 0; firstundef_filename := None;
     errwarns := []; data_deleted := [] |}.

Inductive call :=
| AtLine (f : option string) (l : Z)
| Use (name : string)
| DefineEqu (name : string) (e : option expr)
| DefineLabel (name : string) (sect : option section)
    (precbc : option Bytecode.bytecode) (in_table : bool)
| Decl (name : string) (vis : Z) (d : option of_data).

Definition do_call (c : call) (st : state) : outcome unit :=
  match c with
  | AtLine f l => Returns tt (set_location st f l)
  | Use n => Returns tt (symrec_use n st).2
  | DefineEqu n e => Returns tt (symrec_define_equ n e st).2
  | DefineLabel n sect precbc in_table =>
      Returns tt (symrec_define_label n sect precbc in_table st).2
  | Decl n vis d =>
      match symrec_declare n vis d st with
      | Returns _ st' => Returns tt st'
      | Aborts msg st' => Aborts msg st'
      end
  end.

Fixpoint do_calls (cs : list call) (st : state) : outcome unit :=
  match cs with
  | [] => Returns tt st
  | c :: rest =>
      match do_call c st with
      | Returns _ st' => do_calls rest st'
      | Aborts msg st' => Aborts msg st'
      end
  end.

(** The calls that leave the record of [n] alone, or only use [n]. *)
Definition only_uses (n : string) (c : call) : bool :=
  match c with
  | AtLine _ _ => true
  | Use _ => true
  | DefineEqu m _ => negb (String.eqb m n)
  | DefineLabel m _ _ _ => negb (String.eqb m n)
  | Decl m _ _ => negb (String.eqb m n)
  end.

(** The source position at the first [use(n)] of a run that starts at
    position [(f, l)]. *)
Fixpoint first_use (n : string) (cs : list call) (f : option string) (l : Z)
    : option (option string * Z) :=
  match cs with
  | [] => None
  | AtLine f' l' :: rest => first_use n rest f' l'
  | Use m :: rest =>
      if String.eqb m n then Some (f, l) else first_use n rest f l
  | _ :: rest => first_use n rest f l
  end.

(** *** Reading the diagnostics sink *)

Definition is_undefined_report (n : string) (w : errwarn) : bool :=
  String.eqb (we_fmt w) undefined_fmt
  && match we_args w with
     | [ArgStr m] => String.eqb m n
     | _ => false
     end.

Definition is_once_note (w : errwarn) : bool :=
  String.eqb (we_fmt w) once_fmt.

(** A record that the finalize pass reports: used and not defined. *)
Definition undefined (sym : symrec) : bool :=
  negb (Z.land (status sym) SYM_USED =? 0)
  && (Z.land (status sym) SYM_DEFINED =? 0).

(** The table stores each record under its own name. *)
Definition names_ok (t : gmap string symrec) : Prop :=
  ∀ k sym, t !! k = Some sym → name sym = k.

(** The two diagnostics of the finalize pass. *)
Definition undefined_report (sym : symrec) : errwarn :=
  {| we_filename := filename sym; we_line := line sym;
     we_fmt := undefined_fmt; we_args := [ArgStr (name sym)] |}.

Definition once_report (f : option string) (l : Z) : errwarn :=
  {| we_filename := f; we_line := l; we_fmt := once_fmt; we_args := [] |}.

(** The records of a table in traversal order, and those among them that
    the finalize pass reports. *)
Definition table_records (t : gmap string symrec) : list symrec :=
  (map_to_list t).*2.

Definition undefined_records (t : gmap string symrec) : list symrec :=
  List.filter undefined (table_records t).

(** The values of [firstundef_line] and [firstundef_filename] after the
    reported records [syms] have been visited, from the values [(l, f)]. *)
Fixpoint earliest (syms : list symrec) (l : Z) (f : option string)
    : Z * option string :=
  match syms with
  | [] => (l, f)
  | sym :: rest =>
      if line sym <? l then earliest rest (line sym) (filename sym)
      else earliest rest l f
  end.

(** The name a call is about. *)
Definition call_name (c : call) : option string :=
  match c with
  | AtLine _ _ => None
  | Use n => Some n
  | DefineEqu n _ => Some n
  | DefineLabel n _ _ _ => Some n
  | Decl n _ _ => Some n
  end.

(** [st'] differs from [st] at most in the record stored under [n], in
    the diagnostics sink and in the destructor calls. *)
Definition touches (n : string) (st st' : state) : Prop :=
  in_filename st' = in_filename st
  ∧ line_number st' = line_number st
  ∧ cur_objfmt st' = cur_objfmt st
  ∧ (∀ m, m ≠ n → sym_table st' !! m = sym_table st !! m)
  ∧ (names_ok (sym_table st) → names_ok (sym_table st')).

(** The table holds [n], recorded at [(f, l)], used and not defined. *)
Definition used_at (n : string) (f : option string) (l : Z) (st : state)
    : Prop :=
  ∃ sym, sym_table st !! n = Some sym
    ∧ filename sym = f ∧ line sym = l ∧ undefined sym = true.

(** What the finalize pass adds to the sink for a table [t], when
    [firstundef_filename] held [f0] before the pass. *)
Definition finalize_reports (t : gmap string symrec) (f0 : option string)
    : list errwarn :=
  let e := earliest (undefined_records t) ULONG_MAX f0 in
  map undefined_report (undefined_records t)
  ++ (if e.1 <? ULONG_MAX then [once_report e.2 e.1] else []).

(** *** Accessors and deletion *)

Definition symrec_get_name (sym : symrec) : string := name sym.

Definition symrec_get_visibility (sym : symrec) : Z := visibility sym.

(** The [value] union read through [expn].  [None]: the union does not
    hold what a write through [expn] left; the embedding gives such a read
    no value. *)
Definition value_expn (sym : symrec) : option (option expr) :=
  match value sym with
  | ValExpn e => Some e
  | _ => None
  end.

Definition symrec_get_equ (sym : symrec) : option (option expr) :=
  match type sym with
  | SYM_EQU => value_expn sym
  | _ => Some None
  end.

(** Deallocations of the symbol table, in call order. *)
Inductive sym_release :=
| XfreeName (s : string)
| ExprDelete (e : option expr)
| XfreeSym (sym : symrec).

(** The destructor calls of [symrec_delete_one] for the two payload
    slots, as [(vis, of_data)] pairs. *)
Definition payloads_destroyed (sym : symrec) : list (Z * of_data) :=
  let g :=
    match of_data_vis_g sym with
    | Some d =>
        if negb (Z.land (visibility sym) SYM_GLOBAL =? 0)
        then [(SYM_GLOBAL, d)] else []
    | None => []
    end in
  let '(c, ce) :=
    match of_data_vis_ce sym with
    | Some d =>
        if negb (Z.land (visibility sym) SYM_COMMON =? 0)
        then ([(SYM_COMMON, d)], None) else ([], Some d)
    | None => ([], None)
    end in
  let e :=
    match ce with
    | Some d =>
        if negb (Z.land (visibility sym) SYM_EXTERN =? 0)
        then [(SYM_EXTERN, d)] else []
    | None => []
    end in
  g ++ c ++ e.

(** [XfreeSym] names the record as it was passed in. *)
Definition symrec_delete_one (sym : symrec) (st : state)
    : option (outcome (list sym_release)) :=
  match
    match type sym with
    | SYM_EQU =>
        match value_expn sym with
        | Some e => Some [ExprDelete e]
        | None => None
        end
    | _ => Some []
    end
  with
  | None => None
  | Some rel =>
      match cur_objfmt st with
      | None => Some (Aborts "assert(cur_objfmt != NULL)" st)
      | Some _ =>
          Some (Returns (XfreeName (name sym) :: rel ++ [XfreeSym sym])
                  (set_data_deleted st
                     (data_deleted st ++ payloads_destroyed sym)))
      end
  end.

(** Modelled from the spec: [ternary_cleanup] (ternary.h is not among the
    sources) calls the destructor on every stored record, in the table's
    order, and frees the tree. *)
Fixpoint ternary_cleanup_from (syms : list symrec) (st : state)
    : option (outcome (list sym_release)) :=
  match syms with
  | [] => Some (Returns [] st)
  | sym :: rest =>
      match symrec_delete_one sym st with
      | Some (Returns rel st') =>
          match ternary_cleanup_from rest st' with
          | Some (Returns rel' st'') => Some (Returns (rel ++ rel') st'')
          | other => other
          end
      | other => other
      end
  end.

Definition ternary_cleanup (root : gmap string symrec) (st : state)
    : option (outcome (list sym_release)) :=
  ternary_cleanup_from (table_records root) st.

Definition symrec_delete_all (st : state)
    : option (outcome (list sym_release)) :=
  match ternary_cleanup (sym_table st) st with
  | Some (Returns rel st') => Some (Returns rel (set_sym_table st' ∅))
  | other => other
  end.

Definition symrec_delete (sym : symrec) (st : state)
    : option (outcome (list sym_release)) :=
  if negb (Z.land (status sym) SYM_NOTINTABLE =? 0)
  then symrec_delete_one sym st
  else Some (Returns [] st).

Definition is_xfree_sym (r : sym_release) : bool :=
  match r with
  | XfreeSym _ => true
  | _ => false
  end.

Definition is_xfree_name (r : sym_release) : bool :=
  match r with
  | XfreeName _ => true
  | _ => false
  end.

(** The expression [symrec_delete_one] deletes for a record: the one of
    an [Equ]. *)
Definition expr_released (sym : symrec) : list sym_release :=
  match type sym, value sym with
  | SYM_EQU, ValExpn e => [ExprDelete e]
  | _, _ => []
  end.

(** *** How a record may change over a run *)

(** Every bit of [a] is set in [b]. *)
Definition flags_kept (a b : Z) : Prop := Z.lor a b = b.

(** [r'] is a later state of the record [r]: same name and file, no
    status or visibility bit cleared, still in the table, and the kind
    unchanged if [r] was already defined. *)
Definition record_evolves (r r' : symrec) : Prop :=
  name r' = name r
  ∧ filename r' = filename r
  ∧ flags_kept (status r) (status r')
  ∧ flags_kept (visibility r) (visibility r')
  ∧ Z.land (status r') SYM_NOTINTABLE = Z.land (status r) SYM_NOTINTABLE
  ∧ (Z.land (status r) SYM_DEFINED ≠ 0 → type r' = type r).

(** [st'] has the table of [st], or that table with the record of [n]
    replaced by a later state of it. *)
Definition table_step (n : string) (st st' : state) : Prop :=
  sym_table st' = sym_table st
  ∨ ∃ r', sym_table st' = <[n := r']> (sym_table st)
       ∧ record_evolves (entry n st) r'.

(** No record of the table carries [SYM_NOTINTABLE]. *)
Definition table_status_ok (t : gmap string symrec) : Prop :=
  ∀ k sym, t !! k = Some sym → Z.land (status sym) SYM_NOTINTABLE = 0.

(** Every [Equ] record holds an expression in its [value]. *)
Definition table_equ_ok (t : gmap string symrec) : Prop :=
  ∀ k sym, t !! k = Some sym → type sym = SYM_EQU →
           ∃ e, value sym = ValExpn e.

(** The record of a label that is kept out of the table. *)
Definition transient_label (n : string) (sect : option section)
    (precbc : option Bytecode.bytecode) (st : state) : symrec :=
  {| name := n; type := SYM_LABEL;
     status := Z.lor SYM_NOTINTABLE SYM_DEFINED;
     visibility := SYM_LOCAL; filename := in_filename st;
     line := line_number st; value := ValLabel sect precbc;
     of_data_vis_ce := None; of_data_vis_g := None |}.

End Defs.
End Symrec.

(* ================================================================= *)
(** ** Immediate values *)

Module Immval.
Section Defs.
Context `{X : Externals}.

(** The expression [expr_new_ident(ExprInt(intnum_new_int(v)))] of an
    integer (expr.h and intnum.h are not among the sources). *)
Variable expr_of_int : Z -> expr.

(** [immval] (bytecode.h): the fields the two constructors set. *)
Record immval := {
  val : option expr;
  len : Z;
  isneg : Z;
  f_len : Z;
  f_sign : Z
}.

(** [int_val] is an [unsigned long]. *)
Definition imm_new_int (int_val : Z) : immval :=
  {| val := Some (expr_of_int int_val);
     len := if Z.land int_val 255 =? int_val then 1
            else if Z.land int_val 65535 =? int_val then 2
            else 4;
     isneg := 0; f_len := 0; f_sign := 0 |}.

Definition imm_new_expr (expr_ptr : option expr) : immval :=
  {| val := expr_ptr; len := 0; isneg := 0; f_len := 0; f_sign := 0 |}.

End Defs.
End Immval.

(* ================================================================= *)
(** ** A small instance of the collaborators, to run the code on *)

Inductive demo_expr :=
| DNull
| DNum (n : Z)
| DTree (l r : demo_expr).

Definition demo : Externals :=
  {| expr := demo_expr; ExprOp := unit; EXPR_MUL := tt;
     expr_new_tree := fun l _ r => DTree (default DNull l) (default DNull r);
     section := string; objfmt := string; of_data := Z; arch_data := Z;
     ULONG_MAX := 4294967295 |}.

Section Demo.
Existing Instance demo.

(** An architecture with two bytecode kinds of its own, tags 3 and 4.  Its
    finalize entry fills in the length of the bytecode it is handed. *)
Definition demo_arch : Bytecode.arch (X := demo) :=
  {| Bytecode.type_max := 5;
     Bytecode.arch_bc_parser_finalize := fun bc =>
       Bytecode.Ok
         {| Bytecode.type := Bytecode.type bc;
            Bytecode.multiple := Bytecode.multiple bc;
            Bytecode.len := 6;
            Bytecode.filename := Bytecode.filename bc;
            Bytecode.lineno := Bytecode.lineno bc;
            Bytecode.offset := Bytecode.offset bc;
            Bytecode.contents := Bytecode.contents bc |} |}.

(** [dw 1, "hi", 2] *)
Definition demo_values : list (Bytecode.dataval (X := demo)) :=
  [Bytecode.dv_new_expr (X := demo) (Some (DNum 1));
   Bytecode.dv_new_string "hi";
   Bytecode.dv_new_expr (X := demo) (Some (DNum 2))].

Definition demo_data_bc : Bytecode.bytecode (X := demo) :=
  Bytecode.bc_new_data (Some "a.asm") 3
    (Bytecode.dvs_append_all [] demo_values) 2.

Definition demo_reserve_bc : Bytecode.bytecode (X := demo) :=
  Bytecode.bc_new_reserve (X := demo) (Some "a.asm") 4 (Some (DNum 8)) 2.

(** A translation of [a.asm] under the object format [dbg]. *)
Definition demo_start : Symrec.state (X := demo) :=
  Symrec.initial_state (X := demo) (Some "a.asm") 1 (Some "dbg").

Definition demo_run (cs : list (Symrec.call (X := demo)))
    : Symrec.state (X := demo) :=
  Symrec.final_state (Symrec.do_calls cs demo_start).

(** [x equ 1] on line 3 and [x equ 2] on line 7. *)
Definition demo_equ_twice : list (Symrec.call (X := demo)) :=
  [Symrec.AtLine (Some "a.asm") 3; Symrec.DefineEqu "x" (Some (DNum 1));
   Symrec.AtLine (Some "a.asm") 7; Symrec.DefineEqu "x" (Some (DNum 2))].

(** [x equ 1] on line 3; the parser is on line 8. *)
Definition demo_equ_once : list (Symrec.call (X := demo)) :=
  [Symrec.AtLine (Some "a.asm") 3; Symrec.DefineEqu "x" (Some (DNum 1));
   Symrec.AtLine (Some "a.asm") 8].

(** [extern ext] on line 2, with payload 4; the parser is on line 6. *)
Definition demo_extern : list (Symrec.call (X := demo)) :=
  [Symrec.AtLine (Some "a.asm") 2;
   Symrec.Decl "ext" Symrec.SYM_EXTERN (Some 4);
   Symrec.AtLine (Some "a.asm") 6].

(** [foo] used on lines 5 and 12, [bar] on line 7; neither is defined. *)
Definition demo_uses : list (Symrec.call (X := demo)) :=
  [Symrec.AtLine (Some "a.asm") 5; Symrec.Use "foo";
   Symrec.AtLine (Some "a.asm") 7; Symrec.Use "bar";
   Symrec.AtLine (Some "a.asm") 12; Symrec.Use "foo"].

(** [foo] used on line 5 and declared [global] on line 9; never defined. *)
Definition demo_use_then_global : list (Symrec.call (X := demo)) :=
  [Symrec.AtLine (Some "a.asm") 5; Symrec.Use "foo";
   Symrec.AtLine (Some "a.asm") 9;
   Symrec.Decl "foo" Symrec.SYM_GLOBAL None].

(** A record that is both [Common] and [Extern] and not [Global], with a
    payload in each slot. *)
Definition demo_common_extern : Symrec.symrec (X := demo) :=
  {| Symrec.name := "c"; Symrec.type := Symrec.SYM_UNKNOWN;
     Symrec.status := 2; Symrec.visibility := 6;
     Symrec.filename := Some "a.asm"; Symrec.line := 2;
     Symrec.value := Symrec.ValRaw;
     Symrec.of_data_vis_ce := Some 4;
     Symrec.of_data_vis_g := Some 5 |}.


(** [foo] used on line 5; the parser is on line 9. *)
Definition demo_use_foo : list (Symrec.call (X := demo)) :=
  [Symrec.AtLine (Some "a.asm") 5; Symrec.Use "foo";
   Symrec.AtLine (Some "a.asm") 9].

End Demo.

(* ================================================================= *)
(** ** Properties of the bytecode component *)

Section BytecodeFacts.
Import Bytecode.
Context `{X : Externals}.

Lemma bcs_append_all_app (bcs : list bytecode) :
  ∀ headp,
    bcs_append_all headp bcs
    = headp ++ filter (fun bc => type bc ≠ BC_EMPTY) bcs.
Proof.
  induction bcs as [|bc bcs IH]; intros headp.
  - cbn. by rewrite app_nil_r.
  - change (bcs_append_all headp (bc :: bcs))
      with (bcs_append_all (bcs_append headp (Some bc)).1.2 bcs).
    rewrite IH. unfold bcs_append.
    destruct (Z.eqb_spec (type bc) BC_EMPTY) as [E|E]; cbn [negb fst snd].
    + rewrite filter_cons_False; [done | by intros H; apply H].
    + rewrite filter_cons_True by done. by rewrite <- app_assoc.
Qed.

Lemma dvs_append_all_app (dvs : list dataval) :
  ∀ headp, dvs_append_all headp dvs = headp ++ dvs.
Proof.
  induction dvs as [|dv dvs IH]; intros headp; cbn.
  - by rewrite app_nil_r.
  - unfold dvs_append_all in IH. rewrite IH. by rewrite <- app_assoc.
Qed.

Lemma dvs_print_app (lvl : Z) (l1 l2 : datavalhead) :
  dvs_print lvl (l1 ++ l2) = dvs_print lvl l1 ++ dvs_print lvl l2.
Proof.
  induction l1 as [|dv l1 IH]; cbn; [done|].
  by rewrite IH, app_assoc.
Qed.

Lemma dv_print_inj (lvl : Z) (a b : dataval) :
  dv_print lvl a = dv_print lvl b → a = b.
Proof.
  destruct a, b; cbn; intros H; try discriminate; try done.
  - by injection H as ->.
  - by injection H as ->.
Qed.

(** The values a print-out went through can be read back from it: two
    queues with the same print-out hold the same values in the same
    order. *)
Lemma dvs_print_inj (lvl : Z) (l1 : datavalhead) :
  ∀ l2, dvs_print lvl l1 = dvs_print lvl l2 → l1 = l2.
Proof.
  induction l1 as [|a l1 IH]; intros [|b l2]; cbn; try done.
  - destruct b; discriminate.
  - destruct a; discriminate.
  - intros H.
    assert (a = b ∧ dvs_print lvl l1 = dvs_print lvl l2) as [-> H'].
    { destruct a, b; cbn in H; try discriminate.
      - by injection H.
      - injection H as -> H. done.
      - injection H as -> H. done. }
    f_equal. by apply IH.
Qed.

Lemma dvs_print_concat (lvl : Z) (l : datavalhead) :
  dvs_print lvl l = concat (map (dv_print lvl) l).
Proof. induction l as [|dv l IH]; cbn; [done | by rewrite IH]. Qed.

(** C2 (as amended): [bc_parser_finalize] has no case of its own for the
    built-in [Data] and [Reserve] kinds.  They take the default branch
    with every other kind that is not [Empty]: when the tag is below the
    architecture's [type_max] the bytecode is handed to the dispatch
    table's finalize entry and the outcome is that entry's outcome;
    otherwise the call aborts with "Unknown bytecode type". *)
Theorem bc_parser_finalize_builtin_delegated (cur_arch : arch) (bc : bytecode) :
  type bc = BC_DATA ∨ type bc = BC_RESERVE ∨ type bc ≠ BC_EMPTY →
  (type bc < type_max cur_arch →
     bc_parser_finalize cur_arch bc = arch_bc_parser_finalize cur_arch bc)
  ∧ (type_max cur_arch ≤ type bc →
     bc_parser_finalize cur_arch bc = InternalError "Unknown bytecode type").
Proof.
  intros Hk. unfold bc_parser_finalize.
  assert ((type bc =? BC_EMPTY) = false) as ->.
  { apply Z.eqb_neq. unfold BC_EMPTY, BC_DATA, BC_RESERVE in *. lia. }
  split; intros H.
  - apply Z.ltb_lt in H. by rewrite H.
  - apply Z.ltb_ge in H. by rewrite H.
Qed.

(** The [Empty] kind never reaches the dispatch table. *)
Lemma bc_parser_finalize_empty (cur_arch : arch) (bc : bytecode) :
  type bc = BC_EMPTY →
  bc_parser_finalize cur_arch bc
  = InternalError "got empty bytecode in parser_finalize".
Proof. intros H. unfold bc_parser_finalize. by rewrite H. Qed.

(** C3: [bcs_append] on an [Empty] bytecode returns [NULL], frees the node
    and leaves the list as it was, in length and in contents; on any other
    bytecode it returns the node and the list is the old one followed by
    the node, so that a run of appends stores the non-[Empty] bytecodes in
    arrival order. *)
Theorem bcs_append_empty_or_tail (L : bytecodehead) (bc : bytecode)
    (bcs : list bytecode) :
  (type bc = BC_EMPTY →
     bcs_append L (Some bc) = (None, L, [XfreeBytecode bc])
     ∧ length (bcs_append L (Some bc)).1.2 = length L)
  ∧ (type bc ≠ BC_EMPTY →
     bcs_append L (Some bc) = (Some bc, L ++ [bc], [])
     ∧ last (bcs_append L (Some bc)).1.2 = Some bc
     ∧ (∀ i b, L !! i = Some b → (bcs_append L (Some bc)).1.2 !! i = Some b)
     ∧ length (bcs_append L (Some bc)).1.2 = S (length L))
  ∧ bcs_append_all L bcs = L ++ filter (fun b => type b ≠ BC_EMPTY) bcs.
Proof.
  split; [|split].
  - intros E. unfold bcs_append. by rewrite E.
  - intros E. unfold bcs_append.
    apply Z.eqb_neq in E. rewrite E. cbn [negb fst snd].
    repeat split.
    + by rewrite last_snoc.
    + intros i b Hi. by apply lookup_app_l_Some.
    + rewrite length_app. cbn. lia.
  - apply bcs_append_all_app.
Qed.

(** C4: on a bytecode without a multiplier, [bc_set_multiple] stores its
    argument as it is; a second call stores the product tree of the stored
    multiplier and the new argument, old on the left.  Nothing else in the
    bytecode changes. *)
Theorem bc_set_multiple_twice (bc : bytecode) (A B : expr) :
  multiple bc = None →
  bc_set_multiple bc (Some A) = set_multiple bc (Some A)
  ∧ multiple (bc_set_multiple bc (Some A)) = Some A
  ∧ multiple (bc_set_multiple (bc_set_multiple bc (Some A)) (Some B))
    = Some (expr_new_tree (Some A) EXPR_MUL (Some B))
  ∧ bc_set_multiple (bc_set_multiple bc (Some A)) (Some B)
    = set_multiple bc (Some (expr_new_tree (Some A) EXPR_MUL (Some B))).
Proof.
  intros H. unfold bc_set_multiple. rewrite H. cbn. done.
Qed.

(** C7: [bc_get_offset] returns 0, the "not possible" result, whatever the
    section and the bytecode, and writes nothing to the output slot. *)
Theorem bc_get_offset_unavailable (sect : option section)
    (bc : option bytecode) (ret_val : Z) :
  (bc_get_offset sect bc ret_val).1 = 0
  ∧ (bc_get_offset sect bc ret_val).2 = ret_val.
Proof. done. Qed.

(** C8: a queue built from the empty one by a run of [dvs_append] calls
    holds the appended values in insertion order; [dvs_print] writes the
    print-out of each of them, in that order, and no other queue has this
    print-out; after [dvs_delete] the queue is empty and [dvs_print] writes
    nothing. *)
Theorem dvs_print_enumerates_appended (lvl : Z) (dvs : list dataval) :
  dvs_append_all [] dvs = dvs
  ∧ dvs_print lvl (dvs_append_all [] dvs) = concat (map (dv_print lvl) dvs)
  ∧ (∀ l, dvs_print lvl l = dvs_print lvl (dvs_append_all [] dvs) → l = dvs)
  ∧ (dvs_delete (dvs_append_all [] dvs)).1 = []
  ∧ dvs_print lvl (dvs_delete (dvs_append_all [] dvs)).1 = [].
Proof.
  assert (dvs_append_all [] dvs = dvs) as E by apply dvs_append_all_app.
  rewrite E. repeat split.
  - apply dvs_print_concat.
  - intros l H. by apply dvs_print_inj in H.
Qed.

End BytecodeFacts.

Section BytecodeDemo.
Existing Instance demo.

(** *** The bytecode properties on the demo instance *)

(** C2, counterexample: a [Data] bytecode given to [bc_parser_finalize]
    under [demo_arch] is passed to the architecture's finalize entry, and
    comes back changed. *)
Lemma bc_parser_finalize_data_reaches_arch :
  Bytecode.type demo_data_bc = Bytecode.BC_DATA
  ∧ Bytecode.bc_parser_finalize demo_arch demo_data_bc
    = Bytecode.arch_bc_parser_finalize demo_arch demo_data_bc
  ∧ Bytecode.bc_parser_finalize demo_arch demo_data_bc
    ≠ Bytecode.Ok demo_data_bc.
Proof. repeat split. discriminate. Qed.

Lemma bc_parser_finalize_builtin_delegated_witness :
  (Bytecode.type demo_reserve_bc = Bytecode.BC_DATA
   ∨ Bytecode.type demo_reserve_bc = Bytecode.BC_RESERVE
   ∨ Bytecode.type demo_reserve_bc ≠ Bytecode.BC_EMPTY)
  ∧ (Bytecode.type demo_reserve_bc < Bytecode.type_max demo_arch →
     Bytecode.bc_parser_finalize demo_arch demo_reserve_bc
     = Bytecode.arch_bc_parser_finalize demo_arch demo_reserve_bc)
  ∧ (Bytecode.type_max demo_arch ≤ Bytecode.type demo_reserve_bc →
     Bytecode.bc_parser_finalize demo_arch demo_reserve_bc
     = Bytecode.InternalError "Unknown bytecode type").
Proof.
  split; [right; left; reflexivity|].
  apply (bc_parser_finalize_builtin_delegated demo_arch demo_reserve_bc).
  right; left; reflexivity.
Defined.

Lemma bc_set_multiple_twice_witness :
  Bytecode.multiple demo_reserve_bc = None
  ∧ Bytecode.multiple
      (Bytecode.bc_set_multiple
         (Bytecode.bc_set_multiple demo_reserve_bc (Some (DNum 3)))
         (Some (DNum 5)))
    = Some (DTree (DNum 3) (DNum 5)).
Proof.
  split; [reflexivity|].
  apply (bc_set_multiple_twice (X := demo) demo_reserve_bc (DNum 3) (DNum 5)).
  reflexivity.
Defined.

(** The print-out of [dw 1, "hi", 2] at indentation 2, and of the queue
    after [dvs_delete]. *)
Example dvs_print_demo_values :
  Bytecode.dvs_print 2 (Bytecode.dvs_append_all [] demo_values)
  = [Bytecode.Fprintf (X := demo) "%*sExpr=" [ArgNum 2; ArgStr ""];
     Bytecode.ExprPrint (X := demo) (Some (DNum 1));
     Bytecode.Fprintf nl [];
     Bytecode.Fprintf ("%*sString=%s" +:+ nl)
       [ArgNum 2; ArgStr ""; ArgStr "hi"];
     Bytecode.Fprintf "%*sExpr=" [ArgNum 2; ArgStr ""];
     Bytecode.ExprPrint (X := demo) (Some (DNum 2));
     Bytecode.Fprintf nl []]
  ∧ Bytecode.dvs_print 2
      (Bytecode.dvs_delete (Bytecode.dvs_append_all [] demo_values)).1
    = []
  ∧ (Bytecode.dvs_delete (Bytecode.dvs_append_all [] demo_values)).2
    = [Bytecode.ExprDelete (X := demo) (Some (DNum 1));
       Bytecode.XfreeDataval (Bytecode.DV_EXPR (X := demo) (Some (DNum 1)));
       Bytecode.XfreeStr "hi";
       Bytecode.XfreeDataval (Bytecode.DV_STRING "hi");
       Bytecode.ExprDelete (X := demo) (Some (DNum 2));
       Bytecode.XfreeDataval (Bytecode.DV_EXPR (X := demo) (Some (DNum 2)))].
Proof. repeat split. Qed.

End BytecodeDemo.

(* ================================================================= *)
(** ** Properties of the symbol table *)

Section SymrecFacts.
Import Symrec.
Context `{X : Externals}.

(** *** Flag words *)

Lemma flag_other (s a b : Z) :
  Z.land a b = 0 → Z.land (Z.lor s a) b = Z.land s b.
Proof.
  intros H. by rewrite Z.land_lor_distr_l, H, Z.lor_0_r.
Qed.

Lemma flag_same (s a : Z) : a ≠ 0 → Z.land (Z.lor s a) a ≠ 0.
Proof.
  intros Ha H. rewrite Z.land_lor_distr_l, Z.land_diag in H.
  apply Z.lor_eq_0_iff in H. tauto.
Qed.

Lemma flag_twice (s a : Z) : Z.lor (Z.lor s a) a = Z.lor s a.
Proof. by rewrite <- Z.lor_assoc, Z.lor_diag. Qed.

Lemma flag_kept (s a b : Z) :
  Z.land s b ≠ 0 → Z.land (Z.lor s a) b ≠ 0.
Proof.
  intros Hs H. rewrite Z.land_lor_distr_l in H.
  apply Z.lor_eq_0_iff in H. tauto.
Qed.

(** Setting [SYM_USED] leaves every other bit of the status word alone. *)
Lemma used_bit_only (s k : Z) :
  k ≠ 0 → Z.testbit (Z.lor s SYM_USED) k = Z.testbit s k.
Proof.
  intros Hk. rewrite Z.lor_spec.
  destruct (Z.ltb_spec k 0) as [Hn|Hn].
  - by rewrite !Z.testbit_neg_r.
  - change SYM_USED with (2 ^ 0).
    rewrite Z.pow2_bits_eqb by lia.
    assert ((0 =? k) = false) as -> by lia.
    by rewrite orb_false_r.
Qed.

(** *** Fetch-or-create *)

Lemma get_or_new_found (n : string) (st : state) (r : symrec) :
  sym_table st !! n = Some r →
  symrec_get_or_new n true st = (r, st).
Proof.
  intros H. unfold symrec_get_or_new, ternary_insert. by rewrite H.
Qed.

Lemma get_or_new_fresh (n : string) (st : state) :
  sym_table st !! n = None →
  symrec_get_or_new n true st
  = (symrec_new n st SYM_NOSTATUS,
     set_sym_table st (<[n := symrec_new n st SYM_NOSTATUS]> (sym_table st))).
Proof.
  intros H. unfold symrec_get_or_new, ternary_insert. by rewrite H.
Qed.

Lemma sym_write_twice (n : string) (r1 r2 : symrec) (st : state) :
  sym_write true n r2 (sym_write true n r1 st) = sym_write true n r2 st.
Proof.
  unfold sym_write, set_sym_table. cbn. by rewrite insert_insert_eq.
Qed.

Lemma sym_write_stored (n : string) (r : symrec) (st : state) :
  sym_table st !! n = Some r → sym_write true n r st = st.
Proof.
  intros H. unfold sym_write, set_sym_table.
  rewrite insert_id by done. by destruct st.
Qed.

Lemma Error_sym_write (fmt : string) (args : list fmt_arg) (n : string)
    (r : symrec) (st : state) :
  sym_write true n r (Error fmt args st)
  = Error fmt args (sym_write true n r st).
Proof. done. Qed.

Lemma get_or_new_entry (n : string) (st : state) :
  symrec_get_or_new n true st
  = (entry n st, sym_write true n (entry n st) st).
Proof.
  unfold entry. destruct (sym_table st !! n) as [r|] eqn:E.
  - rewrite (get_or_new_found _ _ _ E). f_equal.
    symmetry. by apply sym_write_stored.
  - by rewrite (get_or_new_fresh _ _ E).
Qed.

Lemma entry_found (n : string) (st : state) (r : symrec) :
  sym_table st !! n = Some r → entry n st = r.
Proof. intros H. unfold entry. by rewrite H. Qed.

Lemma entry_fresh (n : string) (st : state) :
  sym_table st !! n = None → entry n st = symrec_new n st SYM_NOSTATUS.
Proof. intros H. unfold entry. by rewrite H. Qed.

(** *** The entry points, in terms of the record they start from *)

Lemma symrec_use_eq (n : string) (st : state) :
  symrec_use n st
  = (set_status (entry n st) (Z.lor (status (entry n st)) SYM_USED),
     sym_write true n
       (set_status (entry n st) (Z.lor (status (entry n st)) SYM_USED)) st).
Proof.
  unfold symrec_use. rewrite get_or_new_entry.
  by rewrite sym_write_twice.
Qed.

Lemma symrec_define_dup (n : string) (ty : SymType) (st : state) :
  Z.land (status (entry n st)) SYM_DEFINED ≠ 0 →
  symrec_define n ty true st
  = (entry n st,
     Error duplicate_fmt [ArgStr n; ArgNum (line (entry n st))] st).
Proof.
  intros H. unfold symrec_define. rewrite get_or_new_entry.
  apply Z.eqb_neq in H. rewrite H. cbn [negb].
  destruct (sym_table st !! n) as [r|] eqn:E.
  - rewrite (entry_found _ _ _ E), sym_write_stored; done.
  - rewrite (entry_fresh _ _ E) in H. discriminate.
Qed.

Lemma symrec_define_new (n : string) (ty : SymType) (st : state) :
  Z.land (status (entry n st)) SYM_DEFINED = 0 →
  symrec_define n ty true st
  = (defined_rec (entry n st) ty st,
     sym_write true n (defined_rec (entry n st) ty st) st).
Proof.
  intros H. unfold symrec_define. rewrite get_or_new_entry.
  apply Z.eqb_eq in H. rewrite H. cbn [negb].
  by rewrite sym_write_twice.
Qed.

Lemma symrec_define_equ_dup (n : string) (e : option expr) (st : state) :
  Z.land (status (entry n st)) SYM_DEFINED ≠ 0 →
  symrec_define_equ n e st
  = (valued_rec (entry n st) e,
     sym_write true n (valued_rec (entry n st) e)
       (Error duplicate_fmt [ArgStr n; ArgNum (line (entry n st))] st)).
Proof.
  intros H. unfold symrec_define_equ. by rewrite symrec_define_dup.
Qed.

Lemma symrec_define_equ_new (n : string) (e : option expr) (st : state) :
  Z.land (status (entry n st)) SYM_DEFINED = 0 →
  symrec_define_equ n e st
  = (valued_rec (defined_rec (entry n st) SYM_EQU st) e,
     sym_write true n (valued_rec (defined_rec (entry n st) SYM_EQU st) e) st).
Proof.
  intros H. unfold symrec_define_equ. rewrite symrec_define_new by done.
  by rewrite sym_write_twice.
Qed.

(** Whatever the table held, after [symrec_define_equ] the name is stored,
    defined, and its value is the expression of this call. *)
Lemma symrec_define_equ_stored (n : string) (e : option expr) (st : state) :
  sym_table (symrec_define_equ n e st).2 !! n
  = Some (symrec_define_equ n e st).1
  ∧ value (symrec_define_equ n e st).1 = ValExpn e
  ∧ Z.land (status (symrec_define_equ n e st).1) SYM_DEFINED ≠ 0.
Proof.
  destruct (Z.eq_dec (Z.land (status (entry n st)) SYM_DEFINED) 0) as [H|H].
  - rewrite symrec_define_equ_new by done. cbn.
    rewrite lookup_insert_eq. repeat split.
    apply flag_kept, flag_same. done.
  - rewrite symrec_define_equ_dup by done. cbn.
    rewrite lookup_insert_eq. repeat split.
    by apply flag_kept.
Qed.

(** C10: on a name that is in the table, [symrec_use] sets the [SYM_USED]
    bit of the stored record and nothing else: the other status bits, the
    kind, the value, the visibility, the two backend slots, the file and
    the line of the record are as before, and so are the other records and
    the rest of the state.  In particular a use that follows
    [symrec_define_equ] leaves the line of the definition in place. *)
Theorem symrec_use_sets_used_only (n : string) (st : state) (r : symrec) :
  sym_table st !! n = Some r →
  sym_table (symrec_use n st).2 !! n = Some (symrec_use n st).1
  ∧ (symrec_use n st).1 = set_status r (Z.lor (status r) SYM_USED)
  ∧ (∀ k, k ≠ 0 →
       Z.testbit (status (symrec_use n st).1) k = Z.testbit (status r) k)
  ∧ type (symrec_use n st).1 = type r
  ∧ value (symrec_use n st).1 = value r
  ∧ visibility (symrec_use n st).1 = visibility r
  ∧ of_data_vis_ce (symrec_use n st).1 = of_data_vis_ce r
  ∧ of_data_vis_g (symrec_use n st).1 = of_data_vis_g r
  ∧ filename (symrec_use n st).1 = filename r
  ∧ line (symrec_use n st).1 = line r
  ∧ (∀ m, m ≠ n → sym_table (symrec_use n st).2 !! m = sym_table st !! m)
  ∧ (symrec_use n st).2
    = set_sym_table st (<[n := (symrec_use n st).1]> (sym_table st))
  ∧ (∀ e f l,
       line (symrec_use n (set_location (symrec_define_equ n e st).2 f l)).1
       = line (symrec_define_equ n e st).1).
Proof.
  intros H. rewrite symrec_use_eq, (entry_found _ _ _ H). cbn.
  rewrite lookup_insert_eq. repeat split.
  - intros k Hk. by apply used_bit_only.
  - intros m Hm. by rewrite lookup_insert_ne.
  - intros e f l.
    destruct (symrec_define_equ_stored n e st) as (Hs & _ & _).
    rewrite symrec_use_eq.
    erewrite entry_found; [done|]. exact Hs.
Qed.

(** C1 (what the code does): after two calls of [symrec_define_equ] on the
    same name, the second at position [(f, l)], the second call has added
    one duplicate-definition diagnostic that cites the line recorded by the
    first, and the kind, the status and the line of the record are those
    the first call left; but the stored expression is the one of the
    second call.  When the name was not defined before the first call,
    that call made it an [Equ] defined on the current line. *)
Theorem symrec_define_equ_twice (n : string) (e1 e2 : option expr)
    (st : state) (f : option string) (l : Z) :
  let p1 := symrec_define_equ n e1 st in
  let p2 := symrec_define_equ n e2 (set_location p1.2 f l) in
  sym_table p1.2 !! n = Some p1.1
  ∧ value p1.1 = ValExpn e1
  ∧ sym_table p2.2 !! n = Some p2.1
  ∧ value p2.1 = ValExpn e2
  ∧ type p2.1 = type p1.1
  ∧ status p2.1 = status p1.1
  ∧ line p2.1 = line p1.1
  ∧ errwarns p2.2
    = errwarns p1.2
      ++ [{| we_filename := f; we_line := l; we_fmt := duplicate_fmt;
             we_args := [ArgStr n; ArgNum (line p1.1)] |}]
  ∧ (Z.land (status (entry n st)) SYM_DEFINED = 0 →
     type p1.1 = SYM_EQU ∧ line p1.1 = line_number st
     ∧ errwarns p1.2 = errwarns st).
Proof.
  intros p1 p2.
  destruct (symrec_define_equ_stored n e1 st) as (Hs & Hv & Hd).
  fold p1 in Hs, Hv, Hd.
  assert (entry n (set_location p1.2 f l) = p1.1) as He
    by (by apply entry_found).
  assert (p2 = (valued_rec p1.1 e2,
                sym_write true n (valued_rec p1.1 e2)
                  (Error duplicate_fmt [ArgStr n; ArgNum (line p1.1)]
                     (set_location p1.2 f l)))) as ->.
  { unfold p2. rewrite symrec_define_equ_dup; rewrite He; done. }
  cbn. rewrite lookup_insert_eq.
  assert (Z.lor (status p1.1) SYM_VALUED = status p1.1) as Hst.
  { unfold p1.
    destruct (Z.eq_dec (Z.land (status (entry n st)) SYM_DEFINED) 0) as [H|H].
    - rewrite symrec_define_equ_new by done. cbn. apply flag_twice.
    - rewrite symrec_define_equ_dup by done. cbn. apply flag_twice. }
  split; [done|]. split; [done|]. split; [done|]. split; [done|].
  split; [done|]. split; [done|]. split; [done|]. split; [done|].
  intros H. unfold p1. by rewrite symrec_define_equ_new.
Qed.

(** *** Declarations *)

Lemma declare_conflict_new (n : string) (st : state) (vis : Z) :
  declare_conflict (symrec_new n st SYM_NOSTATUS) vis = false.
Proof. done. Qed.


Lemma symrec_declare_conflict (n : string) (vis : Z) (d : option of_data)
    (st : state) (o : objfmt) :
  cur_objfmt st = Some o →
  declare_conflict (entry n st) vis = true →
  symrec_declare n vis d st
  = Returns (entry n st)
      (let st' :=
         Error duplicate_fmt [ArgStr n; ArgNum (line (entry n st))] st in
       match d with
       | Some x => declare_data_delete vis x st'
       | None => st'
       end).
Proof.
  intros Ho Hc. unfold symrec_declare. rewrite get_or_new_entry.
  assert (sym_write true n (entry n st) st = st) as ->.
  { destruct (sym_table st !! n) as [r|] eqn:E.
    - rewrite (entry_found _ _ _ E). by apply sym_write_stored.
    - rewrite (entry_fresh _ _ E), declare_conflict_new in Hc. done. }
  rewrite Ho, Hc. by destruct d.
Qed.

Lemma symrec_declare_accept (n : string) (vis : Z) (d : option of_data)
    (st : state) (o : objfmt) :
  cur_objfmt st = Some o →
  declare_conflict (entry n st) vis = false →
  symrec_declare n vis d st
  = let rec := declared_rec (entry n st) vis st in
    match d with
    | Some x =>
        if vis =? SYM_GLOBAL then
          Returns (set_of_data_vis_g rec (Some x))
            (sym_write true n (set_of_data_vis_g rec (Some x)) st)
        else if (vis =? SYM_COMMON) || (vis =? SYM_EXTERN) then
          Returns (set_of_data_vis_ce rec (Some x))
            (sym_write true n (set_of_data_vis_ce rec (Some x)) st)
        else Aborts "Unexpected vis value" (sym_write true n rec st)
    | None => Returns rec (sym_write true n rec st)
    end.
Proof.
  intros Ho Hc. unfold symrec_declare. rewrite get_or_new_entry.
  cbv beta iota.
  change (cur_objfmt (sym_write true n (entry n st) st))
    with (cur_objfmt st).
  rewrite Ho, Hc.
  change (line_number (sym_write true n (entry n st) st))
    with (line_number st).
  cbv zeta. fold (declared_rec (entry n st) vis st).
  destruct d as [x|];
    repeat match goal with |- context [if ?b then _ else _] =>
             destruct b end;
    by rewrite sym_write_twice.
Qed.


Lemma symrec_declare_refused (n : string) (vis : Z) (d : option of_data)
    (st : state) (o : objfmt) :
  cur_objfmt st = Some o →
  declare_conflict (entry n st) vis = true →
  ∃ st',
    symrec_declare n vis d st = Returns (entry n st) st'
    ∧ sym_table st !! n = Some (entry n st)
    ∧ sym_table st' = sym_table st
    ∧ errwarns st'
      = errwarns st
        ++ [duplicate_report (in_filename st) (line_number st) n
              (line (entry n st))]
    ∧ data_deleted st' = data_deleted st ++ payload_destroyed vis d.
Proof.
  intros Ho Hc. eexists. split; [by eapply symrec_declare_conflict|].
  split.
  { destruct (sym_table st !! n) as [r|] eqn:E.
    - by rewrite (entry_found _ _ _ E).
    - rewrite (entry_fresh _ _ E), declare_conflict_new in Hc. done. }
  destruct d; cbn; by rewrite ?app_nil_r.
Qed.

Lemma symrec_declare_first (n : string) (vis : Z) (d : option of_data)
    (st : state) (o : objfmt) :
  cur_objfmt st = Some o →
  sym_table st !! n = None →
  vis = SYM_COMMON ∨ vis = SYM_EXTERN →
  symrec_declare n vis d st
  = Returns (first_declared n vis d st)
      (sym_write true n (first_declared n vis d st) st).
Proof.
  intros Ho Hn Hv.
  rewrite (symrec_declare_accept _ _ _ _ _ Ho)
    by (by rewrite (entry_fresh _ _ Hn)).
  rewrite (entry_fresh _ _ Hn).
  by destruct Hv as [-> | ->], d.
Qed.

(** The state in which a second declaration of [n] runs: the first one
    has returned and the parser has moved to [(f, l)]. *)
Lemma entry_after_first (n : string) (vis : Z) (d : option of_data)
    (st : state) (f : option string) (l : Z) :
  entry n (set_location (sym_write true n (first_declared n vis d st) st) f l)
  = first_declared n vis d st.
Proof. apply entry_found. cbn. by rewrite lookup_insert_eq. Qed.


(** C9 (as amended): when the declaration is accepted and the visibility
    is none of [Global], [Common] and [Extern], a call with a payload
    aborts with "Unexpected vis value": the payload is in neither slot, no
    diagnostic has been added and the destructor has not been called.  The
    same call without a payload returns; it ors the visibility into the
    record and sets the record's line to the current line, and the status,
    kind, value and slots of the record are as before. *)
Theorem symrec_declare_unexpected_vis (n : string) (vis : Z) (x : of_data)
    (st : state) (o : objfmt) :
  cur_objfmt st = Some o →
  vis ≠ SYM_GLOBAL → vis ≠ SYM_COMMON → vis ≠ SYM_EXTERN →
  declare_conflict (entry n st) vis = false →
  let rec :=
    set_visibility (set_line (entry n st) (line_number st))
      (Z.lor (visibility (entry n st)) vis) in
  symrec_declare n vis (Some x) st
  = Aborts "Unexpected vis value" (sym_write true n rec st)
  ∧ symrec_declare n vis None st = Returns rec (sym_write true n rec st)
  ∧ of_data_vis_ce rec = of_data_vis_ce (entry n st)
  ∧ of_data_vis_g rec = of_data_vis_g (entry n st)
  ∧ errwarns (sym_write true n rec st) = errwarns st
  ∧ data_deleted (sym_write true n rec st) = data_deleted st
  ∧ sym_table (sym_write true n rec st) !! n = Some rec
  ∧ visibility rec = Z.lor (visibility (entry n st)) vis
  ∧ status rec = status (entry n st)
  ∧ type rec = type (entry n st)
  ∧ value rec = value (entry n st)
  ∧ line rec = line_number st.
Proof.
  intros Ho Hg Hc He Hconf rec.
  rewrite !(symrec_declare_accept _ _ _ _ _ Ho Hconf).
  unfold declared_rec. fold rec.
  apply Z.eqb_neq in Hg, Hc, He. rewrite Hg, Hc, He. cbn.
  rewrite lookup_insert_eq. done.
Qed.

(** *** The finalize pass *)

Lemma checksym_traverse {D : Type} (d : D) (syms : list symrec) :
  ∀ st,
    ternary_traverse_from syms d symrec_parser_finalize_checksym st
    = (1,
       let e := earliest (List.filter undefined syms)
                  (firstundef_line st) (firstundef_filename st) in
       set_firstundef
         (set_errwarns st
            (errwarns st
             ++ map undefined_report (List.filter undefined syms)))
         e.1 e.2).
Proof.
  induction syms as [|sym syms IH]; intros st.
  - cbn. rewrite app_nil_r. by destruct st.
  - cbn [ternary_traverse_from List.filter].
    unfold symrec_parser_finalize_checksym at 1. fold (undefined sym).
    destruct (undefined sym).
    + cbn [earliest map].
      change (firstundef_line (ErrorAt _ _ _ _ st))
        with (firstundef_line st).
      destruct (line sym <? firstundef_line st);
        cbn [Z.eqb]; rewrite IH; cbn; by rewrite <- app_assoc.
    + cbn [Z.eqb]. by rewrite IH.
Qed.

Lemma symrec_parser_finalize_errwarns (st : state) :
  errwarns (symrec_parser_finalize st)
  = errwarns st
    ++ map undefined_report (undefined_records (sym_table st))
    ++ (let e := earliest (undefined_records (sym_table st)) ULONG_MAX
                   (firstundef_filename st) in
        if e.1 <? ULONG_MAX then [once_report e.2 e.1] else []).
Proof.
  unfold symrec_parser_finalize, symrec_traverse, ternary_traverse.
  rewrite checksym_traverse. cbn.
  fold (table_records (sym_table st)).
  fold (undefined_records (sym_table st)).
  destruct (_ <? ULONG_MAX); cbn.
  - by rewrite <- app_assoc.
  - by rewrite app_nil_r.
Qed.

Lemma earliest_le_start (syms : list symrec) :
  ∀ l f, (earliest syms l f).1 ≤ l.
Proof.
  induction syms as [|sym syms IH]; intros l f; cbn; [lia|].
  destruct (Z.ltb_spec (line sym) l); [|done].
  specialize (IH (line sym) (filename sym)). lia.
Qed.

Lemma earliest_le (syms : list symrec) :
  ∀ l f sym, sym ∈ syms → (earliest syms l f).1 ≤ line sym.
Proof.
  induction syms as [|s0 syms IH]; intros l f sym Hin.
  - by apply elem_of_nil in Hin.
  - apply elem_of_cons in Hin as [->|Hin]; cbn.
    + destruct (Z.ltb_spec (line s0) l).
      * apply earliest_le_start.
      * pose proof (earliest_le_start syms l f). lia.
    + destruct (line s0 <? l); by apply IH.
Qed.

Lemma earliest_attained (syms : list symrec) :
  ∀ l f,
    earliest syms l f = (l, f)
    ∨ ∃ sym, sym ∈ syms
        ∧ earliest syms l f = (line sym, filename sym) ∧ line sym < l.
Proof.
  induction syms as [|s0 syms IH]; intros l f; cbn; [by left|].
  destruct (Z.ltb_spec (line s0) l) as [Hlt|Hge].
  - right. destruct (IH (line s0) (filename s0)) as [E|(sym & Hin & E & Hl)].
    + exists s0. split; [constructor|done].
    + exists sym. split; [by constructor|]. split; [done|lia].
  - destruct (IH l f) as [E|(sym & Hin & E & Hl)]; [by left|].
    right. exists sym. split; [by constructor|done].
Qed.

(** *** Reading the reports of the finalize pass *)

Lemma is_undefined_report_undefined (n : string) (sym : symrec) :
  is_undefined_report n (undefined_report sym) = String.eqb (name sym) n.
Proof. done. Qed.

Lemma reports_absent (n : string) (syms : list symrec) :
  (∀ sym, sym ∈ syms → undefined sym = true → name sym ≠ n) →
  List.filter (is_undefined_report n)
    (map undefined_report (List.filter undefined syms)) = [].
Proof.
  induction syms as [|s0 syms IH]; intros H; [done|].
  cbn [List.filter]. destruct (undefined s0) eqn:U.
  - cbn [map List.filter]. rewrite is_undefined_report_undefined.
    assert (String.eqb (name s0) n = false) as ->.
    { apply String.eqb_neq. apply H; [constructor|done]. }
    apply IH. intros sym Hin. apply H. by constructor.
  - apply IH. intros sym Hin. apply H. by constructor.
Qed.

Lemma reports_present (n : string) (syms : list symrec) (sym : symrec) :
  NoDup (name <$> syms) →
  sym ∈ syms → name sym = n → undefined sym = true →
  List.filter (is_undefined_report n)
    (map undefined_report (List.filter undefined syms))
  = [undefined_report sym].
Proof.
  induction syms as [|s0 syms IH]; intros Hnd Hin Hn Hu.
  - by apply elem_of_nil in Hin.
  - rewrite fmap_cons in Hnd. apply NoDup_cons in Hnd as [Hnot Hnd].
    apply elem_of_cons in Hin as [<-|Hin].
    + cbn [List.filter]. rewrite Hu. cbn [map List.filter].
      rewrite is_undefined_report_undefined.
      assert (String.eqb (name sym) n = true) as ->
        by (by apply String.eqb_eq).
      f_equal. apply reports_absent.
      intros s' Hs' _ E. apply Hnot. rewrite Hn, <- E.
      by apply list_elem_of_fmap_2.
    + assert (name s0 ≠ n) as Hne.
      { intros E. apply Hnot. rewrite E, <- Hn.
        by apply list_elem_of_fmap_2. }
      cbn [List.filter]. destruct (undefined s0).
      * cbn [map List.filter]. rewrite is_undefined_report_undefined.
        apply String.eqb_neq in Hne. rewrite Hne. by apply IH.
      * by apply IH.
Qed.

Lemma once_notes_of_reports (syms : list symrec) :
  List.filter is_once_note (map undefined_report syms) = [].
Proof. induction syms as [|s0 syms IH]; [done|]. cbn. exact IH. Qed.

Lemma elem_of_table_records (t : gmap string symrec) (sym : symrec) :
  sym ∈ table_records t ↔ ∃ k, t !! k = Some sym.
Proof.
  unfold table_records. rewrite list_elem_of_fmap. split.
  - intros ([k s'] & -> & H). exists k. by apply elem_of_map_to_list.
  - intros (k & H). exists (k, sym). split; [done|].
    by apply elem_of_map_to_list.
Qed.

Lemma table_records_names (t : gmap string symrec) :
  names_ok t → name <$> table_records t = (map_to_list t).*1.
Proof.
  intros Hok. unfold table_records. rewrite <- list_fmap_compose.
  apply list_fmap_ext. intros i [k sym] Hi. cbn.
  apply Hok. apply elem_of_map_to_list. by eapply list_elem_of_lookup_2.
Qed.

Lemma table_records_NoDup (t : gmap string symrec) :
  names_ok t → NoDup (name <$> table_records t).
Proof.
  intros Hok. rewrite table_records_names by done.
  apply NoDup_fst_map_to_list.
Qed.

Lemma elem_of_undefined_records (t : gmap string symrec) (sym : symrec) :
  sym ∈ undefined_records t ↔
  (∃ k, t !! k = Some sym) ∧ undefined sym = true.
Proof.
  unfold undefined_records.
  rewrite list_elem_of_In, filter_In, <- list_elem_of_In.
  by rewrite elem_of_table_records.
Qed.

(** *** What a call leaves alone *)

Lemma entry_name (n : string) (st : state) :
  names_ok (sym_table st) → name (entry n st) = n.
Proof.
  intros Hok. destruct (sym_table st !! n) as [r|] eqn:E.
  - rewrite (entry_found _ _ _ E). by apply Hok.
  - by rewrite (entry_fresh _ _ E).
Qed.

Lemma touches_refl (n : string) (st : state) : touches n st st.
Proof. by repeat split. Qed.

Lemma touches_write (n : string) (r : symrec) (st0 st : state) :
  touches n st0 st →
  (names_ok (sym_table st0) → name r = n) →
  touches n st0 (sym_write true n r st).
Proof.
  intros (Hf & Hl & Ho & Ht & Hok) Hn. repeat split; try done.
  - intros m Hm. cbn. rewrite lookup_insert_ne by done. by apply Ht.
  - intros H0 k sym. cbn. destruct (decide (n = k)) as [<-|Hne].
    + rewrite lookup_insert_eq. intros [= <-]. by apply Hn.
    + rewrite lookup_insert_ne by done. by apply Hok.
Qed.

Lemma touches_Error (n : string) (fmt : string) (args : list fmt_arg)
    (st0 st : state) :
  touches n st0 st → touches n st0 (Error fmt args st).
Proof. intros (Hf & Hl & Ho & Ht & Hok). by repeat split. Qed.

Lemma touches_delete (n : string) (vis : Z) (x : of_data) (st0 st : state) :
  touches n st0 st → touches n st0 (declare_data_delete vis x st).
Proof. intros (Hf & Hl & Ho & Ht & Hok). by repeat split. Qed.

Lemma symrec_use_touches (n : string) (st : state) :
  touches n st (symrec_use n st).2.
Proof.
  rewrite symrec_use_eq. apply touches_write; [apply touches_refl|].
  apply entry_name.
Qed.

Lemma symrec_define_touches (n : string) (ty : SymType) (in_table : bool)
    (st : state) :
  touches n st (symrec_define n ty in_table st).2
  ∧ (names_ok (sym_table st) → name (symrec_define n ty in_table st).1 = n).
Proof.
  destruct in_table.
  - destruct (Z.eq_dec (Z.land (status (entry n st)) SYM_DEFINED) 0) as [H|H].
    + rewrite symrec_define_new by done. split.
      * apply touches_write; [apply touches_refl|]. apply entry_name.
      * apply entry_name.
    + rewrite symrec_define_dup by done. split.
      * apply touches_Error, touches_refl.
      * apply entry_name.
  - split; [apply touches_refl|done].
Qed.

Lemma symrec_define_equ_touches (n : string) (e : option expr) (st : state) :
  touches n st (symrec_define_equ n e st).2.
Proof.
  unfold symrec_define_equ.
  destruct (symrec_define_touches n SYM_EQU true st) as [Ht Hn].
  destruct (symrec_define n SYM_EQU true st) as [rec st'].
  by apply touches_write.
Qed.

Lemma symrec_define_label_touches (n : string) (sect : option section)
    (precbc : option Bytecode.bytecode) (in_table : bool) (st : state) :
  touches n st (symrec_define_label n sect precbc in_table st).2.
Proof.
  unfold symrec_define_label.
  destruct (symrec_define_touches n SYM_LABEL in_table st) as [Ht Hn].
  destruct (symrec_define n SYM_LABEL in_table st) as [rec st'].
  destruct in_table; [by apply touches_write|done].
Qed.

Lemma symrec_declare_touches (n : string) (vis : Z) (d : option of_data)
    (st : state) :
  touches n st (final_state (symrec_declare n vis d st)).
Proof.
  destruct (cur_objfmt st) as [o|] eqn:Ho.
  - destruct (declare_conflict (entry n st) vis) eqn:Hc.
    + rewrite (symrec_declare_conflict _ _ _ _ _ Ho Hc).
      destruct d; cbn [final_state];
        [apply touches_delete|]; apply touches_Error, touches_refl.
    + rewrite (symrec_declare_accept _ _ _ _ _ Ho Hc). cbn zeta.
      assert (names_ok (sym_table st) →
              name (declared_rec (entry n st) vis st) = n) as Hn.
      { intros Hok. unfold declared_rec. cbn zeta.
        destruct (_ || _); by apply entry_name. }
      destruct d as [x|];
        repeat match goal with |- context [if ?b then _ else _] =>
                 destruct b end;
        cbn [final_state]; apply touches_write;
        try apply touches_refl; done.
  - unfold symrec_declare. rewrite get_or_new_entry. cbv beta iota.
    change (cur_objfmt (sym_write true n (entry n st) st))
      with (cur_objfmt st).
    rewrite Ho. cbn [final_state].
    apply touches_write; [apply touches_refl|apply entry_name].
Qed.

Lemma do_call_touches (c : call) (st : state) (n : string) :
  call_name c = Some n → touches n st (final_state (do_call c st)).
Proof.
  destruct c as [f l|m|m e|m sect bc it|m vis d]; cbn; intros [= <-].
  - apply symrec_use_touches.
  - apply symrec_define_equ_touches.
  - apply symrec_define_label_touches.
  - pose proof (symrec_declare_touches m vis d st) as H.
    by destruct (symrec_declare m vis d st).
Qed.

Lemma do_call_names_ok (c : call) (st : state) :
  names_ok (sym_table st) →
  names_ok (sym_table (final_state (do_call c st))).
Proof.
  intros Hok. destruct (call_name c) as [n|] eqn:E.
  - by apply (do_call_touches c st n E).
  - by destruct c.
Qed.

Lemma do_call_other (c : call) (st : state) (m : string) :
  call_name c ≠ Some m →
  sym_table (final_state (do_call c st)) !! m = sym_table st !! m.
Proof.
  intros Hne. destruct (call_name c) as [n|] eqn:E.
  - apply (do_call_touches c st n E). congruence.
  - by destruct c.
Qed.

Lemma do_call_position (c : call) (st : state) (n : string) :
  call_name c = Some n →
  in_filename (final_state (do_call c st)) = in_filename st
  ∧ line_number (final_state (do_call c st)) = line_number st.
Proof.
  intros E. destruct (do_call_touches c st n E) as (Hf & Hl & _). done.
Qed.

Lemma do_calls_names_ok (cs : list call) :
  ∀ st, names_ok (sym_table st) →
        names_ok (sym_table (final_state (do_calls cs st))).
Proof.
  induction cs as [|c cs IH]; intros st Hok; [done|].
  cbn. pose proof (do_call_names_ok c st Hok) as H.
  destruct (do_call c st) as [[] st'|msg st']; [by apply IH|done].
Qed.

Lemma only_uses_cases (n : string) (c : call) :
  only_uses n c = true → c = Use n ∨ call_name c ≠ Some n.
Proof.
  destruct c as [f l|m|m e|m sect bc it|m vis d]; cbn; intros H.
  - by right.
  - destruct (decide (m = n)) as [->|Hne]; [by left|right; congruence].
  - right. apply negb_true_iff, String.eqb_neq in H. congruence.
  - right. apply negb_true_iff, String.eqb_neq in H. congruence.
  - right. apply negb_true_iff, String.eqb_neq in H. congruence.
Qed.

(** *** Uses of a name that is never defined *)

Lemma symrec_use_creates (n : string) (st : state) :
  sym_table st !! n = None →
  used_at n (in_filename st) (line_number st) (symrec_use n st).2.
Proof.
  intros H. rewrite symrec_use_eq, (entry_fresh _ _ H).
  eexists. cbn. rewrite lookup_insert_eq. done.
Qed.

Lemma symrec_use_keeps (n : string) (f : option string) (l : Z)
    (st : state) :
  used_at n f l st → used_at n f l (symrec_use n st).2.
Proof.
  intros (sym & Hs & Hf & Hl & Hu).
  rewrite symrec_use_eq, (entry_found _ _ _ Hs).
  eexists. cbn. rewrite lookup_insert_eq. split; [done|].
  split; [done|]. split; [done|].
  unfold undefined in *. cbn.
  apply andb_true_iff in Hu as [_ Hd].
  apply andb_true_iff. split.
  - apply negb_true_iff, Z.eqb_neq. by apply flag_same.
  - by rewrite flag_other.
Qed.

Lemma do_calls_keep_used (n : string) (f : option string) (l : Z)
    (cs : list call) :
  ∀ st st',
    used_at n f l st →
    forallb (only_uses n) cs = true →
    do_calls cs st = Returns tt st' →
    used_at n f l st'.
Proof.
  induction cs as [|c cs IH]; intros st st' Hu Hall Hrun.
  - cbn in Hrun. by injection Hrun as <-.
  - cbn in Hall. apply andb_true_iff in Hall as [Hc Hall].
    cbn in Hrun.
    destruct (do_call c st) as [[] st1|msg st1] eqn:E; [|done].
    apply (IH st1 st'); [|done|done].
    destruct (only_uses_cases n c Hc) as [->|Hne].
    + cbn in E. injection E as <-. by apply symrec_use_keeps.
    + pose proof (do_call_other c st n Hne) as Ht. rewrite E in Ht.
      cbn in Ht.
      destruct Hu as (sym & Hs & H). exists sym. by rewrite Ht.
Qed.

Lemma do_calls_first_use (n : string) (f : option string) (l : Z)
    (cs : list call) :
  ∀ st st',
    sym_table st !! n = None →
    forallb (only_uses n) cs = true →
    first_use n cs (in_filename st) (line_number st) = Some (f, l) →
    do_calls cs st = Returns tt st' →
    used_at n f l st'.
Proof.
  induction cs as [|c cs IH]; intros st st' Hn Hall Hfirst Hrun; [done|].
  cbn in Hall. apply andb_true_iff in Hall as [Hc Hall].
  cbn in Hrun.
  destruct (do_call c st) as [[] st1|msg st1] eqn:E; [|done].
  destruct (only_uses_cases n c Hc) as [->|Hne].
  - cbn in Hfirst. rewrite String.eqb_refl in Hfirst.
    injection Hfirst as <- <-. cbn in E. injection E as <-.
    apply (do_calls_keep_used n _ _ cs (symrec_use n st).2 st');
      [by apply symrec_use_creates|done|done].
  - pose proof (do_call_other c st n Hne) as Ht. rewrite E in Ht.
    cbn in Ht.
    apply (IH st1 st'); [by rewrite Ht|done| |done].
    destruct c as [f0 l0|m|m e|m sect bc it|m vis d].
    + cbn in E. by injection E as <-.
    + cbn in Hfirst.
      assert (String.eqb m n = false) as Hmn
        by (apply String.eqb_neq; intros ->; by apply Hne).
      rewrite Hmn in Hfirst.
      destruct (do_call_position (Use m) st m eq_refl) as [Hf Hl].
      rewrite E in Hf, Hl. cbn in Hf, Hl. by rewrite Hf, Hl.
    + destruct (do_call_position (DefineEqu m e) st m eq_refl) as [Hf Hl].
      rewrite E in Hf, Hl. cbn in Hf, Hl. by rewrite Hf, Hl.
    + destruct (do_call_position (DefineLabel m sect bc it) st m eq_refl)
        as [Hf Hl].
      rewrite E in Hf, Hl. cbn in Hf, Hl. by rewrite Hf, Hl.
    + destruct (do_call_position (Decl m vis d) st m eq_refl) as [Hf Hl].
      rewrite E in Hf, Hl. cbn in Hf, Hl. by rewrite Hf, Hl.
Qed.

Lemma finalize_reports_of_name (t : gmap string symrec)
    (f0 : option string) (n : string) (sym : symrec) :
  names_ok t → t !! n = Some sym → undefined sym = true →
  List.filter (is_undefined_report n) (finalize_reports t f0)
  = [undefined_report sym].
Proof.
  intros Hok Hs Hu. unfold finalize_reports. cbn zeta.
  rewrite List.filter_app.
  unfold undefined_records.
  rewrite (reports_present n _ sym).
  - by destruct (_ <? ULONG_MAX).
  - by apply table_records_NoDup.
  - apply elem_of_table_records. by exists n.
  - by apply Hok in Hs.
  - done.
Qed.

Lemma finalize_reports_no_name (t : gmap string symrec)
    (f0 : option string) (n : string) :
  names_ok t →
  (∀ sym, t !! n = Some sym → undefined sym = false) →
  List.filter (is_undefined_report n) (finalize_reports t f0) = [].
Proof.
  intros Hok Hn. unfold finalize_reports. cbn zeta.
  rewrite List.filter_app.
  unfold undefined_records. rewrite reports_absent.
  - by destruct (_ <? ULONG_MAX).
  - intros sym Hin Hu E.
    apply elem_of_table_records in Hin as (k & Hk).
    assert (k = n) as -> by (by rewrite <- (Hok _ _ Hk)).
    rewrite (Hn _ Hk) in Hu. done.
Qed.

(** C6 (as amended): after any run of calls that returns, the finalize
    pass visits every record (the traversal is never stopped: its result
    is 1) and adds to the sink one undefined-symbol
    diagnostic for each record that is used and not defined, attributed to
    the file and line stored in that record, and none for any other name;
    when the name entered the table through [use] and the run holds no
    definition or declaration of it, the stored position is the one of its
    first use, however many uses follow.  The summary note comes last and
    at most once: it is there exactly when the smallest line among the
    reported records is below [ULONG_MAX], and it cites that line and the
    file of a reported record on that line; with no reported record
    nothing is added at all. *)
Theorem symrec_parser_finalize_reports (st0 : state) (cs : list call)
    (st : state) :
  names_ok (sym_table st0) →
  do_calls cs st0 = Returns tt st →
  let U := undefined_records (sym_table st) in
  let e := earliest U ULONG_MAX (firstundef_filename st) in
  let new := finalize_reports (sym_table st) (firstundef_filename st) in
  errwarns (symrec_parser_finalize st) = errwarns st ++ new
  ∧ (∀ st1,
       (symrec_traverse (None : option unit)
          symrec_parser_finalize_checksym st1).1 = 1)
  ∧ (∀ n sym,
       sym_table st !! n = Some sym → undefined sym = true →
       List.filter (is_undefined_report n) new = [undefined_report sym])
  ∧ (∀ n,
       (∀ sym, sym_table st !! n = Some sym → undefined sym = false) →
       List.filter (is_undefined_report n) new = [])
  ∧ (∀ n f l,
       sym_table st0 !! n = None →
       forallb (only_uses n) cs = true →
       first_use n cs (in_filename st0) (line_number st0) = Some (f, l) →
       List.filter (is_undefined_report n) new
       = [{| we_filename := f; we_line := l; we_fmt := undefined_fmt;
             we_args := [ArgStr n] |}])
  ∧ new = map undefined_report U
          ++ (if e.1 <? ULONG_MAX then [once_report e.2 e.1] else [])
  ∧ List.filter is_once_note new
    = (if e.1 <? ULONG_MAX then [once_report e.2 e.1] else [])
  ∧ (∀ sym, sym ∈ U → e.1 ≤ line sym)
  ∧ (e.1 < ULONG_MAX → ∃ sym, sym ∈ U ∧ line sym = e.1 ∧ filename sym = e.2)
  ∧ (∀ sym, sym ∈ U → line sym < ULONG_MAX → e.1 < ULONG_MAX)
  ∧ (U = [] → new = []).
Proof.
  intros Hok0 Hrun U e new.
  assert (names_ok (sym_table st)) as Hok.
  { pose proof (do_calls_names_ok cs st0 Hok0) as H. by rewrite Hrun in H. }
  split; [apply symrec_parser_finalize_errwarns|].
  split.
  { intros st1. unfold symrec_traverse, ternary_traverse.
    by rewrite checksym_traverse. }
  split; [intros n sym; by apply finalize_reports_of_name|].
  split; [intros n; by apply finalize_reports_no_name|].
  split.
  { intros n f l Hn Hall Hfirst.
    destruct (do_calls_first_use n f l cs st0 st Hn Hall Hfirst Hrun)
      as (sym & Hs & <- & <- & Hu).
    unfold new. rewrite (finalize_reports_of_name _ _ n sym); try done.
    unfold undefined_report. by rewrite (Hok _ _ Hs). }
  split; [done|].
  split.
  { unfold new, finalize_reports. cbn zeta. rewrite List.filter_app.
    rewrite once_notes_of_reports. fold U. fold e.
    by destruct (e.1 <? ULONG_MAX). }
  split; [intros sym Hin; by apply earliest_le|].
  split.
  { intros Hlt.
    destruct (earliest_attained U ULONG_MAX (firstundef_filename st))
      as [E|(sym & Hin & E & _)].
    - unfold e in Hlt. rewrite E in Hlt. cbn in Hlt. lia.
    - exists sym. unfold e. by rewrite E. }
  split.
  { intros sym Hin Hlt. pose proof (earliest_le U ULONG_MAX
      (firstundef_filename st) sym Hin) as H. fold e in H. lia. }
  intros HU. unfold new, finalize_reports. fold U. rewrite HU. cbn.
  by rewrite Z.ltb_irrefl.
Qed.

End SymrecFacts.

Section SymrecDemo.
Existing Instance demo.

(** *** The symbol table properties on the demo instance *)

(** C1 at the failing input: after [x equ 1] on line 3 and [x equ 2] on
    line 7 the table holds [x] as an [Equ] of line 3, the diagnostic of
    line 7 cites line 3, and the stored expression is [2]. *)
Lemma symrec_define_equ_twice_demo :
  (Symrec.value <$> Symrec.sym_table (demo_run demo_equ_twice) !! "x")
  = Some (Symrec.ValExpn (Some (DNum 2)))
  ∧ (Symrec.type <$> Symrec.sym_table (demo_run demo_equ_twice) !! "x")
    = Some Symrec.SYM_EQU
  ∧ (Symrec.line <$> Symrec.sym_table (demo_run demo_equ_twice) !! "x")
    = Some 3
  ∧ Symrec.errwarns (demo_run demo_equ_twice)
    = [Symrec.duplicate_report (Some "a.asm") 7 "x" 3].
Proof.
  pose proof (symrec_define_equ_twice (X := demo) "x" (Some (DNum 1))
                (Some (DNum 2))
                (Symrec.set_location demo_start (Some "a.asm") 3)
                (Some "a.asm") 7) as H.
  cbv zeta in H. destruct H as (_ & _ & H2 & Hv & Ht & _ & Hl & He & H0).
  destruct H0 as (Ht1 & Hl1 & He1); [reflexivity|].
  change (Symrec.sym_table (demo_run demo_equ_twice) !! "x")
    with (Symrec.sym_table
            (Symrec.symrec_define_equ "x" (Some (DNum 2))
               (Symrec.set_location
                  (Symrec.symrec_define_equ (X := demo) "x" (Some (DNum 1))
                     (Symrec.set_location demo_start (Some "a.asm") 3)).2
                  (Some "a.asm") 7)).2 !! "x").
  rewrite H2. cbn [fmap option_fmap option_map].
  rewrite Hv, Ht, Ht1, Hl, Hl1. repeat split.
Defined.


(** [declare(foo, Local, 7)] on a new name aborts; without the payload it
    returns. *)
Lemma symrec_declare_unexpected_vis_witness :
  Symrec.cur_objfmt demo_start = Some "dbg"
  ∧ Symrec.SYM_LOCAL ≠ Symrec.SYM_GLOBAL
  ∧ Symrec.SYM_LOCAL ≠ Symrec.SYM_COMMON
  ∧ Symrec.SYM_LOCAL ≠ Symrec.SYM_EXTERN
  ∧ Symrec.declare_conflict (Symrec.entry "foo" demo_start)
      Symrec.SYM_LOCAL = false
  ∧ (∃ st', Symrec.symrec_declare "foo" Symrec.SYM_LOCAL (Some 7) demo_start
            = Symrec.Aborts "Unexpected vis value" st')
  ∧ (∃ r st', Symrec.symrec_declare "foo" Symrec.SYM_LOCAL None demo_start
              = Symrec.Returns r st').
Proof.
  split; [reflexivity|]. split; [discriminate|]. split; [discriminate|].
  split; [discriminate|]. split; [reflexivity|].
  destruct (symrec_declare_unexpected_vis (X := demo) "foo" Symrec.SYM_LOCAL 7
              demo_start "dbg" eq_refl) as (Ha & Hr & _);
    try discriminate; try reflexivity.
  split; eexists; [exact Ha | eexists; exact Hr].
Defined.

(** [x], defined on line 3, is used on line 8: its line stays 3. *)
Lemma symrec_use_sets_used_only_witness :
  Symrec.sym_table (demo_run demo_equ_once) !! "x"
  = Some {| Symrec.name := "x"; Symrec.type := Symrec.SYM_EQU;
            Symrec.status := 6; Symrec.visibility := 0;
            Symrec.filename := Some "a.asm"; Symrec.line := 3;
            Symrec.value := Symrec.ValExpn (Some (DNum 1));
            Symrec.of_data_vis_ce := None;
            Symrec.of_data_vis_g := None |}
  ∧ Symrec.line (Symrec.symrec_use "x" (demo_run demo_equ_once)).1 = 3
  ∧ Symrec.status (Symrec.symrec_use "x" (demo_run demo_equ_once)).1 = 7.
Proof.
  split; [reflexivity|].
  destruct (symrec_use_sets_used_only (X := demo) "x" (demo_run demo_equ_once) _
              eq_refl) as (_ & Hr & _ & _ & _ & _ & _ & _ & _ & Hl & _).
  rewrite Hl, Hr. split; reflexivity.
Defined.

(** [foo], used on lines 5 and 12 and never defined, is reported once, at
    line 5. *)
Lemma symrec_parser_finalize_reports_witness :
  Symrec.names_ok (Symrec.sym_table demo_start)
  ∧ Symrec.do_calls demo_uses demo_start
    = Symrec.Returns tt (demo_run demo_uses)
  ∧ List.filter (Symrec.is_undefined_report "foo")
      (Symrec.finalize_reports (Symrec.sym_table (demo_run demo_uses))
         (Symrec.firstundef_filename (demo_run demo_uses)))
    = [{| Symrec.we_filename := Some "a.asm"; Symrec.we_line := 5;
          Symrec.we_fmt := Symrec.undefined_fmt;
          Symrec.we_args := [ArgStr "foo"] |}].
Proof.
  assert (Symrec.names_ok (Symrec.sym_table demo_start)) as Hok.
  { intros k sym H. cbn in H. rewrite lookup_empty in H. discriminate. }
  split; [exact Hok|]. split; [reflexivity|].
  destruct (symrec_parser_finalize_reports (X := demo) demo_start demo_uses
              (demo_run demo_uses) Hok eq_refl)
    as (_ & _ & _ & _ & H & _).
  apply H; reflexivity.
Defined.

(** What the pass adds for [demo_uses]: one report for [foo], one for
    [bar], and the note at line 5. *)
Example symrec_parser_finalize_demo_uses :
  Symrec.errwarns (Symrec.symrec_parser_finalize (demo_run demo_uses))
  = [{| Symrec.we_filename := Some "a.asm"; Symrec.we_line := 5;
        Symrec.we_fmt := Symrec.undefined_fmt;
        Symrec.we_args := [ArgStr "foo"] |};
     {| Symrec.we_filename := Some "a.asm"; Symrec.we_line := 7;
        Symrec.we_fmt := Symrec.undefined_fmt;
        Symrec.we_args := [ArgStr "bar"] |};
     Symrec.once_report (Some "a.asm") 5].
Proof. vm_compute. reflexivity. Qed.

(** C6, counterexample: [foo] is first used on line 5 and declared
    [global] on line 9; it is never defined.  The one undefined-symbol
    diagnostic for [foo] is attributed to line 9, not to the line of the
    first use. *)
Lemma symrec_parser_finalize_not_first_use :
  Symrec.first_use "foo" demo_use_then_global
    (Symrec.in_filename demo_start) (Symrec.line_number demo_start)
  = Some (Some "a.asm", 5)
  ∧ Symrec.do_calls demo_use_then_global demo_start
    = Symrec.Returns tt (demo_run demo_use_then_global)
  ∧ List.filter (Symrec.is_undefined_report "foo")
      (Symrec.errwarns
         (Symrec.symrec_parser_finalize (demo_run demo_use_then_global)))
    = [{| Symrec.we_filename := Some "a.asm"; Symrec.we_line := 9;
          Symrec.we_fmt := Symrec.undefined_fmt;
          Symrec.we_args := [ArgStr "foo"] |}].
Proof. repeat split. Qed.

End SymrecDemo.

(* ================================================================= *)
(** ** Further properties of the bytecode component *)

Section ImmvalFacts.
Import Immval.
Context `{X : Externals}.
Variable expr_of_int : Z -> expr.

Lemma land_low_bits (v n : Z) :
  0 ≤ v → 0 ≤ n → (Z.land v (Z.ones n) =? v) = (v <? 2 ^ n).
Proof.
  intros Hv Hn. rewrite Z.land_ones by done.
  destruct (Z.ltb_spec v (2 ^ n)) as [H|H].
  - apply Z.eqb_eq. apply Z.mod_small. lia.
  - apply Z.eqb_neq. intros E.
    pose proof (Z.mod_pos_bound v (2 ^ n)) as B. lia.
Qed.

(** X1: for an unsigned value, [imm_new_int] chooses the length 1 up to
    255, 2 up to 65535 and 4 above, whatever the size of the value: the
    length is the least of 1, 2 and 4 bytes that holds a value below
    2^32, and stays 4 for larger values. *)
Theorem imm_new_int_len (v : Z) :
  0 ≤ v →
  (len (imm_new_int expr_of_int v) = 1 ↔ v ≤ 255)
  ∧ (len (imm_new_int expr_of_int v) = 2 ↔ 256 ≤ v ≤ 65535)
  ∧ (len (imm_new_int expr_of_int v) = 4 ↔ 65536 ≤ v)
  ∧ (v < 2 ^ 32 → v < 2 ^ (8 * len (imm_new_int expr_of_int v)))
  ∧ val (imm_new_int expr_of_int v) = Some (expr_of_int v).
Proof.
  intros Hv. cbn [imm_new_int len val].
  change 255 with (Z.ones 8). change 65535 with (Z.ones 16).
  rewrite !land_low_bits by lia.
  change (2 ^ 8) with 256. change (2 ^ 16) with 65536.
  destruct (Z.ltb_spec v 256); [|destruct (Z.ltb_spec v 65536)];
    change (Z.ones 8) with 255; change (Z.ones 16) with 65535;
    repeat split; try lia; try done.
Qed.

End ImmvalFacts.

Section BytecodeMore.
Import Bytecode.
Context `{X : Externals}.

Lemma bc_set_multiple_set (bc : bytecode) (m : expr) (e : option expr) :
  multiple bc = Some m →
  bc_set_multiple bc e
  = set_multiple bc (Some (expr_new_tree (Some m) EXPR_MUL e)).
Proof. intros H. unfold bc_set_multiple. by rewrite H. Qed.

(** X2: once a bytecode has a multiplier, every further call of
    [bc_set_multiple], with an expression or with [NULL], wraps the stored
    multiplier as the left operand of a new product; the multiplier is
    never cleared or replaced and no other field changes. *)
Theorem bc_set_multiple_all_nests (es : list (option expr)) :
  ∀ (bc : bytecode) (m : expr),
    multiple bc = Some m →
    bc_set_multiple_all bc es
    = set_multiple bc
        (Some (fold_left (fun acc e => expr_new_tree (Some acc) EXPR_MUL e)
                 es m)).
Proof.
  induction es as [|e es IH]; intros bc m H.
  - cbn. rewrite <- H. by destruct bc.
  - cbn [bc_set_multiple_all fold_left].
    rewrite (bc_set_multiple_set _ _ _ H).
    change (fold_left bc_set_multiple es ?b) with (bc_set_multiple_all b es).
    by rewrite (IH _ (expr_new_tree (Some m) EXPR_MUL e)).
Qed.

Lemma dvs_delete_from_nodes (l : list dataval) :
  List.filter is_xfree_dataval (dvs_delete_from l) = map XfreeDataval l.
Proof.
  induction l as [|dv l IH]; [done|].
  cbn [dvs_delete_from]. rewrite List.filter_app. cbn [List.filter map].
  cbn [is_xfree_dataval]. rewrite IH. by destruct dv.
Qed.

Lemma dvs_delete_from_no_bytecode (l : list dataval) :
  List.filter is_xfree_bytecode (dvs_delete_from l) = [].
Proof.
  induction l as [|dv l IH]; [done|].
  cbn [dvs_delete_from]. rewrite List.filter_app. cbn [List.filter].
  cbn [is_xfree_bytecode]. rewrite IH. by destruct dv.
Qed.

(** X3: [dvs_delete] frees every node of the queue exactly once, in queue
    order, releases the expression of each [DV_EXPR] node and the string
    of each [DV_STRING] node, and leaves the queue empty, so that a second
    [dvs_delete] releases nothing. *)
Theorem dvs_delete_once (l : list dataval) :
  List.filter is_xfree_dataval (dvs_delete l).2 = map XfreeDataval l
  ∧ (∀ e, ExprDelete e ∈ (dvs_delete l).2 ↔ DV_EXPR e ∈ l)
  ∧ (∀ s, XfreeStr s ∈ (dvs_delete l).2 ↔ DV_STRING s ∈ l)
  ∧ length (dvs_delete l).2
    = (length l + length (List.filter
                            (fun dv => match dv with
                                       | DV_EMPTY => false
                                       | _ => true
                                       end) l))%nat
  ∧ (dvs_delete l).1 = []
  ∧ dvs_delete (dvs_delete l).1 = ([], []).
Proof.
  cbn [dvs_delete fst snd]. split; [apply dvs_delete_from_nodes|].
  split; [|split; [|split; [|done]]].
  - intros e. induction l as [|dv l IH].
    + cbn. split; intros H; by apply elem_of_nil in H.
    + cbn [dvs_delete_from]. rewrite elem_of_app, !elem_of_cons, IH.
      destruct dv; cbn; rewrite ?elem_of_cons, ?elem_of_nil;
        split; intros H; destruct_or?; simplify_eq; auto.
  - intros s. induction l as [|dv l IH].
    + cbn. split; intros H; by apply elem_of_nil in H.
    + cbn [dvs_delete_from]. rewrite elem_of_app, !elem_of_cons, IH.
      destruct dv; cbn; rewrite ?elem_of_cons, ?elem_of_nil;
        split; intros H; destruct_or?; simplify_eq; auto.
  - induction l as [|dv l IH]; [done|].
    cbn [dvs_delete_from List.filter]. rewrite length_app. cbn [length].
    rewrite IH. destruct dv; cbn; lia.
Qed.

Lemma bc_delete_builtin (cur_arch : arch)
    (arch_bc_delete : bytecode -> result (list release)) (bc : bytecode) :
  builtin_wf bc = true →
  bc_delete cur_arch arch_bc_delete (Some bc)
  = Some (Ok (builtin_releases bc)).
Proof.
  unfold builtin_wf, bc_delete, bc_delete_contents, builtin_releases,
    bc_get_data_data, bc_get_data_reserve.
  destruct (contents bc) as [|d|r|p]; intros H; try done.
  - apply Z.eqb_eq in H. by rewrite H.
  - apply Z.eqb_eq in H. by rewrite H.
Qed.

(** X4: [bc_delete] does nothing on [NULL]; on a bytecode it ends, when it
    returns, by deleting the multiplier and freeing the node, after the
    contents: the data values of a [Data] bytecode, the count of a
    [Reserve] bytecode, nothing for [Empty], and what the dispatch table's
    entry releases for a tag below [type_max].  A tag that is neither
    built in nor below [type_max] aborts with "Unknown bytecode type"
    before anything is released. *)
Theorem bc_delete_by_kind (cur_arch : arch)
    (arch_bc_delete : bytecode -> result (list release)) (bc : bytecode) :
  bc_delete cur_arch arch_bc_delete None = Some (Ok [])
  ∧ (∀ rel,
       bc_delete cur_arch arch_bc_delete (Some bc) = Some (Ok rel) →
       ∃ pre, rel = pre ++ [ExprDelete (multiple bc); XfreeBytecode bc])
  ∧ (type bc = BC_EMPTY →
     bc_delete cur_arch arch_bc_delete (Some bc)
     = Some (Ok [ExprDelete (multiple bc); XfreeBytecode bc]))
  ∧ (builtin_wf bc = true →
     bc_delete cur_arch arch_bc_delete (Some bc)
     = Some (Ok (builtin_releases bc)))
  ∧ (type bc ≠ BC_EMPTY → type bc ≠ BC_DATA → type bc ≠ BC_RESERVE →
     (type bc < type_max cur_arch →
      ∀ rel, arch_bc_delete bc = Ok rel →
        bc_delete cur_arch arch_bc_delete (Some bc)
        = Some (Ok (rel ++ [ExprDelete (multiple bc); XfreeBytecode bc])))
     ∧ (type_max cur_arch ≤ type bc →
        bc_delete cur_arch arch_bc_delete (Some bc)
        = Some (InternalError "Unknown bytecode type"))).
Proof.
  split; [done|]. split; [|split; [|split]].
  - intros rel. unfold bc_delete.
    destruct (bc_delete_contents _ _ bc) as [[pre|msg]|]; intros [=].
    by exists pre.
  - intros E. unfold bc_delete, bc_delete_contents. by rewrite E.
  - apply bc_delete_builtin.
  - intros He Hd Hr. unfold bc_delete, bc_delete_contents.
    apply Z.eqb_neq in He, Hd, Hr. rewrite He, Hd, Hr. split.
    + intros Hlt rel Ha. apply Z.ltb_lt in Hlt. by rewrite Hlt, Ha.
    + intros Hge. apply Z.ltb_ge in Hge. by rewrite Hge.
Qed.

Lemma builtin_releases_nodes (bc : bytecode) :
  List.filter is_xfree_bytecode (builtin_releases bc) = [XfreeBytecode bc]
  ∧ List.filter is_xfree_dataval (builtin_releases bc)
    = map XfreeDataval (bc_values bc).
Proof.
  unfold builtin_releases, bc_values. rewrite !List.filter_app.
  destruct (contents bc) as [|d|r|p]; cbn [List.filter app map
    is_xfree_bytecode is_xfree_dataval]; rewrite ?app_nil_r;
    rewrite ?dvs_delete_from_nodes, ?dvs_delete_from_no_bytecode; done.
Qed.

(** X5: on a list of well-formed [Data] and [Reserve] bytecodes,
    [bcs_delete] returns with the list empty, having freed every node
    exactly once, in list order, and every data value of every [Data]
    node exactly once; the dispatch table is not consulted. *)
Theorem bcs_delete_builtin (cur_arch : arch)
    (arch_bc_delete : bytecode -> result (list release))
    (L : bytecodehead) :
  forallb builtin_wf L = true →
  bcs_delete cur_arch arch_bc_delete L
  = Some (Ok ([], flat_map builtin_releases L))
  ∧ List.filter is_xfree_bytecode (flat_map builtin_releases L)
    = map XfreeBytecode L
  ∧ List.filter is_xfree_dataval (flat_map builtin_releases L)
    = map XfreeDataval (flat_map bc_values L).
Proof.
  intros H.
  assert (bcs_delete_from cur_arch arch_bc_delete L
          = Some (Ok (flat_map builtin_releases L))
          ∧ List.filter is_xfree_bytecode (flat_map builtin_releases L)
            = map XfreeBytecode L
          ∧ List.filter is_xfree_dataval (flat_map builtin_releases L)
            = map XfreeDataval (flat_map bc_values L)) as (E & Hb & Hd).
  { induction L as [|b L IH]; [done|].
    cbn [forallb] in H. apply andb_true_iff in H as [Hb HL].
    destruct (IH HL) as (E & Hn & Hv).
    destruct (builtin_releases_nodes b) as [Hbn Hbv].
    cbn [bcs_delete_from flat_map].
    rewrite (bc_delete_builtin _ _ _ Hb), E.
    rewrite !List.filter_app, Hn, Hv, Hbn, Hbv, map_app. done. }
  unfold bcs_delete. by rewrite E.
Qed.

Lemma bcs_parser_finalize_ok (cur_arch : arch) (L : bytecodehead) :
  ∀ L',
    bcs_parser_finalize cur_arch L = Ok L' ↔
    Forall2 (fun b b' => bc_parser_finalize cur_arch b = Ok b') L L'.
Proof.
  induction L as [|b L IH]; intros L'; cbn [bcs_parser_finalize].
  - split.
    + intros [= <-]. constructor.
    + intros H. by apply Forall2_nil_inv_l in H as ->.
  - split.
    + destruct (bc_parser_finalize cur_arch b) as [b1|msg] eqn:Eb; [|done].
      destruct (bcs_parser_finalize cur_arch L) as [L1|msg] eqn:EL; [|done].
      intros [= <-]. constructor; [done|]. by apply IH.
    + intros H. apply Forall2_cons_inv_l in H as (b2 & L2 & Hb & HL & ->).
      apply IH in HL. by rewrite Hb, HL.
Qed.

(** X6: [bcs_parser_finalize] is all or nothing.  It returns exactly when
    [bc_parser_finalize] returns on every node, and then the result holds
    the finalized nodes in list order; it aborts with the message of the
    first node whose finalize aborts, the nodes before it having
    returned. *)
Theorem bcs_parser_finalize_all_or_nothing (cur_arch : arch)
    (L : bytecodehead) :
  (∀ L',
     bcs_parser_finalize cur_arch L = Ok L' ↔
     Forall2 (fun b b' => bc_parser_finalize cur_arch b = Ok b') L L')
  ∧ (∀ msg,
       bcs_parser_finalize cur_arch L = InternalError msg ↔
       ∃ pre pre' b post,
         L = pre ++ b :: post
         ∧ Forall2 (fun b b' => bc_parser_finalize cur_arch b = Ok b')
             pre pre'
         ∧ bc_parser_finalize cur_arch b = InternalError msg).
Proof.
  split; [apply bcs_parser_finalize_ok|].
  induction L as [|b L IH]; intros msg; cbn [bcs_parser_finalize].
  - split; [done|]. intros (pre & pre' & b & post & E & _).
    by destruct pre.
  - destruct (bc_parser_finalize cur_arch b) as [b1|msg1] eqn:Eb.
    + destruct (bcs_parser_finalize cur_arch L) as [L1|msg2] eqn:EL.
      * split; [done|].
        intros (pre & pre' & b0 & post & E & Hpre & Hb0).
        destruct pre as [|p pre].
        -- cbn in E. injection E as <- <-. congruence.
        -- cbn in E. injection E as <- ->.
           apply Forall2_cons_inv_l in Hpre as (p1 & pre1 & Hp & Hpre1 & ->).
           assert (Ok L1 = InternalError msg) as Habs; [|done].
           apply IH. by exists pre, pre1, b0, post.
      * split.
        -- intros [= <-].
           destruct (proj1 (IH msg2) eq_refl)
             as (pre & pre' & b0 & post & -> & Hpre & Hb0).
           exists (b :: pre), (b1 :: pre'), b0, post.
           split; [done|]. split; [by constructor|done].
        -- intros (pre & pre' & b0 & post & E & Hpre & Hb0).
           destruct pre as [|p pre].
           ++ cbn in E. injection E as <- <-. congruence.
           ++ cbn in E. injection E as <- ->.
              apply Forall2_cons_inv_l in Hpre
                as (p1 & pre1 & Hp & Hpre1 & ->).
              apply IH. by exists pre, pre1, b0, post.
    + split.
      * intros [= <-]. exists [], [], b, L. by repeat split.
      * intros (pre & pre' & b0 & post & E & Hpre & Hb0).
        destruct pre as [|p pre].
        -- cbn in E. injection E as <- <-. congruence.
        -- cbn in E. injection E as <- ->.
           apply Forall2_cons_inv_l in Hpre as (p1 & pre1 & Hp & Hpre1 & ->).
           congruence.
Qed.

Lemma bcs_parser_finalize_by_arch (cur_arch : arch) (L : bytecodehead) :
  Forall (fun b => type b ≠ BC_EMPTY ∧ type b < type_max cur_arch) L →
  bcs_parser_finalize cur_arch L = arch_finalize_all cur_arch L.
Proof.
  induction 1 as [|b L [He Hlt] HL IH]; [done|].
  cbn [bcs_parser_finalize arch_finalize_all]. rewrite IH.
  unfold bc_parser_finalize.
  apply Z.eqb_neq in He. apply Z.ltb_lt in Hlt. by rewrite He, Hlt.
Qed.

(** X7: a list filled through [bcs_append] holds no [Empty] bytecode, so
    the finalize pass over it never meets the "got empty bytecode" abort
    of [bc_parser_finalize]; when moreover every tag is below [type_max],
    the pass is the dispatch table's finalize entry applied to the stored
    bytecodes in list order. *)
Theorem bcs_parser_finalize_appended (cur_arch : arch)
    (bcs : list bytecode) :
  Forall (fun b => type b ≠ BC_EMPTY) (bcs_append_all [] bcs)
  ∧ (∀ b, b ∈ bcs_append_all [] bcs →
          bc_parser_finalize cur_arch b
          = if type b <? type_max cur_arch
            then arch_bc_parser_finalize cur_arch b
            else InternalError "Unknown bytecode type")
  ∧ ((∀ b, b ∈ bcs → type b < type_max cur_arch) →
     bcs_parser_finalize cur_arch (bcs_append_all [] bcs)
     = arch_finalize_all cur_arch (bcs_append_all [] bcs)).
Proof.
  rewrite bcs_append_all_app. cbn [app].
  assert (Forall (fun b => type b ≠ BC_EMPTY)
            (filter (fun bc => type bc ≠ BC_EMPTY) bcs)) as Hne.
  { apply Forall_forall. intros b Hb.
    apply list_elem_of_filter in Hb as [Hb _]. exact Hb. }
  split; [done|]. split.
  - intros b Hb. rewrite Forall_forall in Hne. specialize (Hne b Hb).
    unfold bc_parser_finalize. apply Z.eqb_neq in Hne. by rewrite Hne.
  - intros Hlt. apply bcs_parser_finalize_by_arch.
    apply Forall_forall. intros b Hb.
    apply list_elem_of_filter in Hb as [Hb1 Hb2]. split; [done|by apply Hlt].
Qed.

End BytecodeMore.

(* ================================================================= *)
(** ** Further properties of the symbol table *)

Section SymrecMore.
Import Symrec.
Context `{X : Externals}.

(** *** Labels *)

Lemma symrec_define_label_dup (n : string) (sect : option section)
    (bc : option Bytecode.bytecode) (st : state) :
  Z.land (status (entry n st)) SYM_DEFINED ≠ 0 →
  symrec_define_label n sect bc true st
  = (set_value (entry n st) (ValLabel sect bc),
     sym_write true n (set_value (entry n st) (ValLabel sect bc))
       (Error duplicate_fmt [ArgStr n; ArgNum (line (entry n st))] st)).
Proof.
  intros H. unfold symrec_define_label. by rewrite symrec_define_dup.
Qed.

Lemma symrec_define_label_new (n : string) (sect : option section)
    (bc : option Bytecode.bytecode) (st : state) :
  Z.land (status (entry n st)) SYM_DEFINED = 0 →
  symrec_define_label n sect bc true st
  = (set_value (defined_rec (entry n st) SYM_LABEL st) (ValLabel sect bc),
     sym_write true n
       (set_value (defined_rec (entry n st) SYM_LABEL st) (ValLabel sect bc))
       st).
Proof.
  intros H. unfold symrec_define_label. rewrite symrec_define_new by done.
  by rewrite sym_write_twice.
Qed.

Lemma symrec_define_label_transient (n : string) (sect : option section)
    (bc : option Bytecode.bytecode) (st : state) :
  symrec_define_label n sect bc false st
  = (transient_label n sect bc st, st).
Proof. done. Qed.

(** X8: [symrec_use] never reports anything and never calls the
    destructor; afterwards the name is in the table with [SYM_USED] set,
    and the other records are as before.  A name that was not in the
    table becomes an [Unknown], [Local] record with that one flag,
    recorded at the current file and line. *)
Theorem symrec_use_always (n : string) (st : state) :
  sym_table (symrec_use n st).2 !! n = Some (symrec_use n st).1
  ∧ Z.land (status (symrec_use n st).1) SYM_USED ≠ 0
  ∧ errwarns (symrec_use n st).2 = errwarns st
  ∧ data_deleted (symrec_use n st).2 = data_deleted st
  ∧ (∀ m, m ≠ n → sym_table (symrec_use n st).2 !! m = sym_table st !! m)
  ∧ (sym_table st !! n = None →
     (symrec_use n st).1
     = {| name := n; type := SYM_UNKNOWN; status := SYM_USED;
          visibility := SYM_LOCAL; filename := in_filename st;
          line := line_number st; value := ValRaw;
          of_data_vis_ce := None; of_data_vis_g := None |}).
Proof.
  rewrite symrec_use_eq. cbn. rewrite lookup_insert_eq.
  split; [done|]. split; [by apply flag_same|].
  split; [done|]. split; [done|]. split.
  - intros m Hm. by rewrite lookup_insert_ne.
  - intros H. by rewrite (entry_fresh _ _ H).
Qed.

(** X9: a label defined with [in_table = 0] is a record outside the
    table: the table, the diagnostics and the rest of the state are
    untouched, even when the table already holds a definition of the
    name, and the record is a [Label] with [SYM_NOTINTABLE] and
    [SYM_DEFINED] at the current position.  It is the kind of record
    [symrec_delete] frees: under an object format, name and record are
    released and nothing else happens. *)
Theorem symrec_define_label_out_of_table (n : string)
    (sect : option section) (bc : option Bytecode.bytecode)
    (st st1 : state) (o : objfmt) :
  cur_objfmt st1 = Some o →
  (symrec_define_label n sect bc false st).2 = st
  ∧ (symrec_define_label n sect bc false st).1
    = transient_label n sect bc st
  ∧ symrec_delete (symrec_define_label n sect bc false st).1 st1
    = Some (Returns
              [XfreeName n;
               XfreeSym (symrec_define_label n sect bc false st).1]
              st1).
Proof.
  intros Ho. rewrite symrec_define_label_transient. cbn [fst snd].
  split; [done|]. split; [done|].
  unfold symrec_delete, symrec_delete_one. cbn. rewrite Ho, app_nil_r.
  by destruct st1.
Qed.

(** X10: [symrec_define_label] on a name of the table that is not yet
    defined makes it a [Label], sets [SYM_DEFINED] and not [SYM_VALUED],
    records the current line and the section and bytecode, keeps the
    file, the visibility and the payload slots, and reports nothing.  On
    a name that is already defined it adds exactly one
    duplicate-definition diagnostic citing the recorded line, and kind,
    status and line stay as they were. *)
Theorem symrec_define_label_in_table (n : string) (sect : option section)
    (bc : option Bytecode.bytecode) (st : state) :
  let p := symrec_define_label n sect bc true st in
  sym_table p.2 !! n = Some p.1
  ∧ (Z.land (status (entry n st)) SYM_DEFINED = 0 →
     type p.1 = SYM_LABEL
     ∧ status p.1 = Z.lor (status (entry n st)) SYM_DEFINED
     ∧ Z.land (status p.1) SYM_VALUED = Z.land (status (entry n st)) SYM_VALUED
     ∧ line p.1 = line_number st
     ∧ value p.1 = ValLabel sect bc
     ∧ filename p.1 = filename (entry n st)
     ∧ visibility p.1 = visibility (entry n st)
     ∧ of_data_vis_ce p.1 = of_data_vis_ce (entry n st)
     ∧ of_data_vis_g p.1 = of_data_vis_g (entry n st)
     ∧ errwarns p.2 = errwarns st)
  ∧ (Z.land (status (entry n st)) SYM_DEFINED ≠ 0 →
     type p.1 = type (entry n st)
     ∧ status p.1 = status (entry n st)
     ∧ line p.1 = line (entry n st)
     ∧ errwarns p.2
       = errwarns st
         ++ [duplicate_report (in_filename st) (line_number st) n
               (line (entry n st))]).
Proof.
  intros p. unfold p.
  destruct (Z.eq_dec (Z.land (status (entry n st)) SYM_DEFINED) 0) as [H|H].
  - rewrite symrec_define_label_new by done. cbn.
    rewrite lookup_insert_eq. split; [done|]. split; [|done].
    intros _. repeat split. by apply flag_other.
  - rewrite symrec_define_label_dup by done. cbn.
    rewrite lookup_insert_eq. split; [done|]. split; [done|].
    intros _. done.
Qed.

(** *** Records over a run *)

Lemma flags_kept_refl (a : Z) : flags_kept a a.
Proof. unfold flags_kept. apply Z.lor_diag. Qed.

Lemma flags_kept_lor (a b c : Z) : flags_kept a b → flags_kept a (Z.lor b c).
Proof. unfold flags_kept. intros H. by rewrite Z.lor_assoc, H. Qed.

Lemma flags_kept_trans (a b c : Z) :
  flags_kept a b → flags_kept b c → flags_kept a c.
Proof.
  unfold flags_kept. intros H1 H2. by rewrite <- H2, Z.lor_assoc, H1.
Qed.

Lemma flags_kept_nonzero (a b f : Z) :
  flags_kept a b → Z.land a f ≠ 0 → Z.land b f ≠ 0.
Proof.
  unfold flags_kept. intros H Ha. rewrite <- H.
  by apply flag_kept.
Qed.

Lemma flags_kept_testbit (a b i : Z) :
  flags_kept a b → Z.testbit a i = true → Z.testbit b i = true.
Proof.
  unfold flags_kept. intros H Ha. by rewrite <- H, Z.lor_spec, Ha.
Qed.

Lemma record_evolves_refl (r : symrec) : record_evolves r r.
Proof. repeat split; apply flags_kept_refl. Qed.

Lemma record_evolves_trans (r1 r2 r3 : symrec) :
  record_evolves r1 r2 → record_evolves r2 r3 → record_evolves r1 r3.
Proof.
  intros (Hn1 & Hf1 & Hs1 & Hv1 & Ht1 & Hk1) (Hn2 & Hf2 & Hs2 & Hv2 & Ht2 & Hk2).
  split; [congruence|]. split; [congruence|].
  split; [by eapply flags_kept_trans|].
  split; [by eapply flags_kept_trans|].
  split; [congruence|].
  intros Hd. rewrite Hk2, Hk1; [done|done|].
  by eapply flags_kept_nonzero.
Qed.

Ltac evolve :=
  unfold record_evolves, defined_rec, valued_rec, declared_rec; cbn;
  repeat match goal with
         | |- _ ∧ _ => split
         | |- context [if ?b then _ else _] => destruct b; cbn
         end;
  try done;
  repeat apply flags_kept_lor; try apply flags_kept_refl;
  rewrite ?flag_other by done; try done.

Lemma table_step_same (n : string) (st st' : state) :
  sym_table st' = sym_table st → table_step n st st'.
Proof. by left. Qed.

Lemma table_step_write (n : string) (r : symrec) (st st' : state) :
  sym_table st' = <[n := r]> (sym_table st) →
  record_evolves (entry n st) r →
  table_step n st st'.
Proof. intros H1 H2. right. by exists r. Qed.

Lemma symrec_use_step (n : string) (st : state) :
  table_step n st (symrec_use n st).2.
Proof.
  rewrite symrec_use_eq. eapply table_step_write; [done|]. evolve.
Qed.

Lemma symrec_define_equ_step (n : string) (e : option expr) (st : state) :
  table_step n st (symrec_define_equ n e st).2.
Proof.
  destruct (Z.eq_dec (Z.land (status (entry n st)) SYM_DEFINED) 0) as [H|H].
  - rewrite symrec_define_equ_new by done.
    eapply table_step_write; [done|]. evolve.
  - rewrite symrec_define_equ_dup by done.
    eapply table_step_write; [done|]. evolve.
Qed.

Lemma symrec_define_label_step (n : string) (sect : option section)
    (bc : option Bytecode.bytecode) (in_table : bool) (st : state) :
  table_step n st (symrec_define_label n sect bc in_table st).2.
Proof.
  destruct in_table; [|by apply table_step_same].
  destruct (Z.eq_dec (Z.land (status (entry n st)) SYM_DEFINED) 0) as [H|H].
  - rewrite symrec_define_label_new by done.
    eapply table_step_write; [done|]. evolve.
  - rewrite symrec_define_label_dup by done.
    eapply table_step_write; [done|]. evolve.
Qed.

Lemma symrec_declare_step (n : string) (vis : Z) (d : option of_data)
    (st : state) :
  table_step n st (final_state (symrec_declare n vis d st)).
Proof.
  destruct (cur_objfmt st) as [o|] eqn:Ho.
  - destruct (declare_conflict (entry n st) vis) eqn:Hc.
    + rewrite (symrec_declare_conflict _ _ _ _ _ Ho Hc).
      apply table_step_same. by destruct d.
    + rewrite (symrec_declare_accept _ _ _ _ _ Ho Hc). cbn zeta.
      destruct d as [x|];
        repeat match goal with |- context [if ?b then _ else _] =>
                 destruct b end;
        cbn [final_state]; (eapply table_step_write; [done|]); evolve.
  - unfold symrec_declare. rewrite get_or_new_entry. cbv beta iota.
    change (cur_objfmt (sym_write true n (entry n st) st))
      with (cur_objfmt st).
    rewrite Ho. cbn [final_state].
    eapply table_step_write; [done|]. apply record_evolves_refl.
Qed.

Lemma do_call_step (c : call) (st : state) :
  sym_table (final_state (do_call c st)) = sym_table st
  ∨ ∃ n, call_name c = Some n
      ∧ table_step n st (final_state (do_call c st)).
Proof.
  destruct c as [f l|m|m e|m sect bc it|m vis d]; cbn.
  - by left.
  - right. exists m. split; [done|]. apply symrec_use_step.
  - right. exists m. split; [done|]. apply symrec_define_equ_step.
  - right. exists m. split; [done|]. apply symrec_define_label_step.
  - right. exists m. split; [done|].
    pose proof (symrec_declare_step m vis d st) as H.
    by destruct (symrec_declare m vis d st).
Qed.

Lemma table_step_evolves (n : string) (st st' : state) (k : string)
    (r : symrec) :
  table_step n st st' →
  sym_table st !! k = Some r →
  ∃ r', sym_table st' !! k = Some r' ∧ record_evolves r r'.
Proof.
  intros [E|(r' & E & Hev)] Hk.
  - exists r. rewrite E. split; [done|apply record_evolves_refl].
  - destruct (decide (n = k)) as [->|Hne].
    + exists r'. rewrite E, lookup_insert_eq. split; [done|].
      by rewrite (entry_found _ _ _ Hk) in Hev.
    + exists r. rewrite E, lookup_insert_ne by done.
      split; [done|apply record_evolves_refl].
Qed.

Lemma table_step_status_ok (n : string) (st st' : state) :
  table_step n st st' →
  table_status_ok (sym_table st) → table_status_ok (sym_table st').
Proof.
  intros [E|(r' & E & Hev)] Hok; [by rewrite E|].
  intros k sym. rewrite E. destruct (decide (n = k)) as [->|Hne].
  - rewrite lookup_insert_eq. intros [= <-].
    destruct Hev as (_ & _ & _ & _ & Ht & _). rewrite Ht.
    destruct (sym_table st !! k) as [r|] eqn:Ek.
    + rewrite (entry_found _ _ _ Ek). by eapply Hok.
    + by rewrite (entry_fresh _ _ Ek).
  - rewrite lookup_insert_ne by done. apply Hok.
Qed.

Lemma do_calls_evolve (cs : list call) :
  ∀ st k r,
    sym_table st !! k = Some r →
    ∃ r', sym_table (final_state (do_calls cs st)) !! k = Some r'
          ∧ record_evolves r r'.
Proof.
  induction cs as [|c cs IH]; intros st k r Hk.
  - exists r. split; [done|apply record_evolves_refl].
  - assert (∃ r1, sym_table (final_state (do_call c st)) !! k = Some r1
                  ∧ record_evolves r r1) as (r1 & H1 & Hev1).
    { destruct (do_call_step c st) as [E|(n & _ & Hs)].
      - exists r. rewrite E. split; [done|apply record_evolves_refl].
      - by eapply table_step_evolves. }
    cbn [do_calls].
    destruct (do_call c st) as [[] st1|msg st1]; cbn [final_state] in *.
    + destruct (IH st1 k r1 H1) as (r' & H' & Hev').
      exists r'. split; [done|]. by eapply record_evolves_trans.
    + by exists r1.
Qed.

Lemma do_calls_status_ok (cs : list call) :
  ∀ st,
    table_status_ok (sym_table st) →
    table_status_ok (sym_table (final_state (do_calls cs st))).
Proof.
  induction cs as [|c cs IH]; intros st Hok; [done|].
  assert (table_status_ok (sym_table (final_state (do_call c st)))) as H1.
  { destruct (do_call_step c st) as [E|(n & _ & Hs)]; [by rewrite E|].
    by eapply table_step_status_ok. }
  cbn [do_calls].
  destruct (do_call c st) as [[] st1|msg st1]; cbn [final_state] in *;
    [by apply IH|done].
Qed.

(** X11: over any run of calls, aborted or not, a record of the table is
    never removed, keeps its name and its file, never loses a status or a
    visibility bit, and once it is defined its kind is fixed and it stays
    defined. *)
Theorem do_calls_records_persist (cs : list call) (st : state) (k : string)
    (r : symrec) :
  sym_table st !! k = Some r →
  ∃ r',
    sym_table (final_state (do_calls cs st)) !! k = Some r'
    ∧ name r' = name r
    ∧ filename r' = filename r
    ∧ (∀ i, Z.testbit (status r) i = true → Z.testbit (status r') i = true)
    ∧ (∀ i, Z.testbit (visibility r) i = true →
            Z.testbit (visibility r') i = true)
    ∧ (Z.land (status r) SYM_DEFINED ≠ 0 →
       type r' = type r ∧ Z.land (status r') SYM_DEFINED ≠ 0).
Proof.
  intros Hk.
  destruct (do_calls_evolve cs st k r Hk)
    as (r' & H' & Hn & Hf & Hs & Hv & _ & Ht).
  exists r'. split; [done|]. split; [done|]. split; [done|].
  split; [intros i; by apply flags_kept_testbit|].
  split; [intros i; by apply flags_kept_testbit|].
  intros Hd. split; [by apply Ht|]. by eapply flags_kept_nonzero.
Qed.

(** X12: no call stores a record with [SYM_NOTINTABLE] in the table, so
    [symrec_delete] on a record of the table, after any run from a table
    without such records, releases nothing and leaves the state as it
    is. *)
Theorem symrec_delete_spares_table (cs : list call) (st0 st : state)
    (k : string) (r : symrec) :
  table_status_ok (sym_table st0) →
  sym_table (final_state (do_calls cs st0)) !! k = Some r →
  Z.land (status r) SYM_NOTINTABLE = 0
  ∧ symrec_delete r st = Some (Returns [] st).
Proof.
  intros Hok Hk.
  pose proof (do_calls_status_ok cs st0 Hok k r Hk) as H.
  split; [done|]. unfold symrec_delete. by rewrite H.
Qed.

(** X13: a name that is defined, by a definition or by a [Common] or
    [Extern] declaration, is never reported by the finalize pass,
    whatever calls follow. *)
Theorem defined_never_reported (cs : list call) (st : state) (n : string)
    (r : symrec) (f0 : option string) :
  names_ok (sym_table st) →
  sym_table st !! n = Some r →
  Z.land (status r) SYM_DEFINED ≠ 0 →
  List.filter (is_undefined_report n)
    (finalize_reports (sym_table (final_state (do_calls cs st))) f0)
  = [].
Proof.
  intros Hok Hn Hd.
  destruct (do_calls_evolve cs st n r Hn)
    as (r' & H' & _ & _ & Hs & _).
  apply finalize_reports_no_name; [by apply do_calls_names_ok|].
  intros sym Hsym. rewrite H' in Hsym. injection Hsym as <-.
  unfold undefined. apply andb_false_iff. right.
  apply Z.eqb_neq. by eapply flags_kept_nonzero.
Qed.

Lemma do_calls_only_uses_record (n : string) (cs : list call) :
  ∀ st st' r,
    sym_table st !! n = Some r →
    forallb (only_uses n) cs = true →
    do_calls cs st = Returns tt st' →
    ∃ r', sym_table st' !! n = Some r'
          ∧ (r' = r ∨ r' = set_status r (Z.lor (status r) SYM_USED)).
Proof.
  induction cs as [|c cs IH]; intros st st' r Hn Hall Hrun.
  - cbn in Hrun. injection Hrun as <-. exists r. auto.
  - cbn in Hall. apply andb_true_iff in Hall as [Hc Hall]. cbn in Hrun.
    destruct (do_call c st) as [[] st1|msg st1] eqn:E; [|done].
    destruct (only_uses_cases n c Hc) as [->|Hne].
    + cbn in E. injection E as <-.
      pose proof (symrec_use_eq n st) as Hu.
      rewrite (entry_found _ _ _ Hn) in Hu.
      destruct (IH (symrec_use n st).2 st'
                  (set_status r (Z.lor (status r) SYM_USED)))
        as (r' & H' & [->| ->]); [by rewrite Hu; cbn;
          rewrite lookup_insert_eq|done|done| |].
      * exists (set_status r (Z.lor (status r) SYM_USED)). auto.
      * exists (set_status r (Z.lor (status r) SYM_USED)).
        split; [|by right]. rewrite H'. unfold set_status. cbn.
        by rewrite flag_twice.
    + pose proof (do_call_other c st n Hne) as Ht. rewrite E in Ht.
      cbn in Ht. apply (IH st1 st' r); [by rewrite Ht|done|done].
Qed.

(** X14: an expression given to [symrec_define_equ] for a name that was
    not defined is what [symrec_get_equ] returns for the stored record,
    also after any further calls that only use the name or concern other
    names; the record stays an [Equ] of the line of its definition. *)
Theorem symrec_get_equ_round_trip (n : string) (e : option expr)
    (st st' : state) (cs : list call) :
  Z.land (status (entry n st)) SYM_DEFINED = 0 →
  forallb (only_uses n) cs = true →
  do_calls cs (symrec_define_equ n e st).2 = Returns tt st' →
  symrec_get_equ (symrec_define_equ n e st).1 = Some e
  ∧ ∃ r, sym_table st' !! n = Some r
      ∧ symrec_get_equ r = Some e
      ∧ type r = SYM_EQU
      ∧ line r = line_number st
      ∧ Z.land (status r) SYM_VALUED ≠ 0.
Proof.
  intros Hd Hall Hrun.
  destruct (symrec_define_equ_stored n e st) as (Hs & _ & _).
  destruct (do_calls_only_uses_record n cs _ st' _ Hs Hall Hrun)
    as (r & Hr & Hcase).
  rewrite symrec_define_equ_new in * by done. cbn [fst snd] in *.
  split; [done|]. exists r. split; [done|].
  assert (Z.land (Z.lor (Z.lor (status (entry n st)) SYM_DEFINED)
                    SYM_VALUED) SYM_VALUED ≠ 0) as Hv
    by (by apply flag_same).
  destruct Hcase as [-> | ->]; cbn; repeat split; try done.
  by apply flag_kept.
Qed.

(** X15: on a new name declared [Common] or [Extern], a later
    [symrec_define_equ] or [symrec_define_label] is a duplicate
    definition: it adds one diagnostic that cites the line of the
    declaration, and the record keeps the kind [Unknown], its visibility
    and the line of the declaration. *)
Theorem symrec_define_after_declare (n : string) (v : Z)
    (d : option of_data) (e : option expr) (sect : option section)
    (bc : option Bytecode.bytecode) (st : state) (f : option string)
    (l : Z) (o : objfmt) :
  cur_objfmt st = Some o →
  sym_table st !! n = None →
  v = SYM_COMMON ∨ v = SYM_EXTERN →
  let st1 := set_location (final_state (symrec_declare n v d st)) f l in
  let pe := symrec_define_equ n e st1 in
  let pl := symrec_define_label n sect bc true st1 in
  errwarns st1 = errwarns st
  ∧ type pe.1 = SYM_UNKNOWN ∧ visibility pe.1 = v
  ∧ line pe.1 = line_number st
  ∧ errwarns pe.2
    = errwarns st ++ [duplicate_report f l n (line_number st)]
  ∧ type pl.1 = SYM_UNKNOWN ∧ visibility pl.1 = v
  ∧ line pl.1 = line_number st
  ∧ errwarns pl.2
    = errwarns st ++ [duplicate_report f l n (line_number st)].
Proof.
  intros Ho Hn Hv. cbv zeta.
  rewrite (symrec_declare_first _ _ _ _ _ Ho Hn Hv). cbn [final_state].
  set (st1 := set_location
                (sym_write true n (first_declared n v d st) st) f l).
  assert (entry n st1 = first_declared n v d st) as He
    by apply entry_after_first.
  assert (Z.land (status (entry n st1)) SYM_DEFINED ≠ 0) as Hd
    by (by rewrite He).
  rewrite symrec_define_equ_dup, symrec_define_label_dup by done.
  rewrite He. done.
Qed.

(** X16: after [symrec_define_equ] or [symrec_define_label] has defined
    a name that is not [Extern], every [symrec_declare] of the name,
    [Global] included, is refused: it returns the record as the
    definition left it, adds one diagnostic that cites the line of the
    definition, hands a non-null payload to the destructor and leaves the
    table as it was. *)
Theorem symrec_declare_after_define (n : string) (e : option expr)
    (sect : option section) (bc : option Bytecode.bytecode)
    (vis : Z) (d : option of_data) (st : state) (f : option string)
    (l : Z) (o : objfmt) :
  cur_objfmt st = Some o →
  Z.land (status (entry n st)) SYM_DEFINED = 0 →
  Z.land (visibility (entry n st)) SYM_EXTERN = 0 →
  ∀ p1,
    p1 = symrec_define_equ n e st
    ∨ p1 = symrec_define_label n sect bc true st →
    ∃ st2,
      symrec_declare n vis d (set_location p1.2 f l) = Returns p1.1 st2
      ∧ sym_table st2 = sym_table p1.2
      ∧ sym_table p1.2 !! n = Some p1.1
      ∧ errwarns st2
        = errwarns st ++ [duplicate_report f l n (line_number st)]
      ∧ data_deleted st2 = data_deleted st ++ payload_destroyed vis d.
Proof.
  intros Ho Hd Hx p1 Hp1.
  assert (cur_objfmt (set_location p1.2 f l) = Some o
          ∧ sym_table p1.2 !! n = Some p1.1
          ∧ declare_conflict p1.1 vis = true
          ∧ line p1.1 = line_number st
          ∧ errwarns p1.2 = errwarns st
          ∧ data_deleted p1.2 = data_deleted st)
    as (Ho1 & Hs & Hc & Hl & He & Hdd).
  { assert (∀ s, (Z.land (Z.lor s SYM_DEFINED) SYM_DEFINED =? 0) = false)
      as Hdef by (intros s; apply Z.eqb_neq; by apply flag_same).
    destruct Hp1 as [-> | ->].
    - rewrite symrec_define_equ_new by done. cbn.
      rewrite lookup_insert_eq. repeat split; try done.
      unfold declare_conflict. cbn. rewrite Hx.
      rewrite (flag_other _ SYM_VALUED SYM_DEFINED) by done.
      by rewrite Hdef.
    - rewrite symrec_define_label_new by done. cbn.
      rewrite lookup_insert_eq. repeat split; try done.
      unfold declare_conflict. cbn. rewrite Hx. by rewrite Hdef. }
  assert (entry n (set_location p1.2 f l) = p1.1) as Hent
    by (by apply entry_found).
  rewrite <- Hent in Hc.
  destruct (symrec_declare_refused n vis d _ o Ho1 Hc)
    as (st2 & E2 & _ & Ht & Hw & Hdel).
  exists st2. rewrite Hent in E2, Hw.
  split; [exact E2|]. split; [exact Ht|]. split; [exact Hs|].
  split.
  - rewrite Hw, Hl. cbn. by rewrite He.
  - rewrite Hdel. cbn. by rewrite Hdd.
Qed.

(** X17: a new name declared [Global] and then defined as a label ends as
    a [Global] [Label], defined on the line of the definition, with the
    payload of the declaration in the global slot; neither call reports
    anything or calls the destructor. *)
Theorem symrec_global_then_label (n : string) (d : option of_data)
    (sect : option section) (bc : option Bytecode.bytecode) (st : state)
    (f : option string) (l : Z) (o : objfmt) :
  cur_objfmt st = Some o →
  sym_table st !! n = None →
  ∃ r1 st1,
    symrec_declare n SYM_GLOBAL d st = Returns r1 st1
    ∧ let p := symrec_define_label n sect bc true (set_location st1 f l) in
      sym_table p.2 !! n = Some p.1
      ∧ type p.1 = SYM_LABEL
      ∧ visibility p.1 = SYM_GLOBAL
      ∧ status p.1 = SYM_DEFINED
      ∧ line p.1 = l
      ∧ value p.1 = ValLabel sect bc
      ∧ of_data_vis_g p.1 = d
      ∧ errwarns p.2 = errwarns st
      ∧ data_deleted p.2 = data_deleted st.
Proof.
  intros Ho Hn.
  assert (declare_conflict (entry n st) SYM_GLOBAL = false) as Hc
    by (by rewrite (entry_fresh _ _ Hn)).
  rewrite (symrec_declare_accept _ _ _ _ _ Ho Hc), (entry_fresh _ _ Hn).
  destruct d as [x|]; cbn zeta; cbn [Z.eqb SYM_GLOBAL Z.shiftl];
    eexists _, _; (split; [reflexivity|]);
    (rewrite symrec_define_label_new;
       [|erewrite entry_found; [|cbn; by rewrite lookup_insert_eq]; done]);
    (erewrite entry_found; [|cbn; by rewrite lookup_insert_eq]);
    cbn; rewrite lookup_insert_eq; done.
Qed.

(** *** Deletion *)

Lemma payloads_destroyed_flat (sym : symrec) :
  payloads_destroyed sym
  = match of_data_vis_g sym with
    | Some g =>
        if negb (Z.land (visibility sym) SYM_GLOBAL =? 0)
        then [(SYM_GLOBAL, g)] else []
    | None => []
    end
    ++ match of_data_vis_ce sym with
       | Some c =>
           if negb (Z.land (visibility sym) SYM_COMMON =? 0)
           then [(SYM_COMMON, c)]
           else if negb (Z.land (visibility sym) SYM_EXTERN =? 0)
                then [(SYM_EXTERN, c)] else []
       | None => []
       end.
Proof.
  unfold payloads_destroyed.
  destruct (of_data_vis_g sym), (of_data_vis_ce sym);
    destruct (Z.land (visibility sym) SYM_GLOBAL =? 0);
    destruct (Z.land (visibility sym) SYM_COMMON =? 0);
    destruct (Z.land (visibility sym) SYM_EXTERN =? 0); done.
Qed.

(** X18: under an object format, [symrec_delete_one] on a record whose
    [value] agrees with its kind releases, in this order, the name, the
    expression when the record is an [Equ], and the record: the name and
    the record exactly once each, and nothing else; table and diagnostics
    are left alone.  The payload of the global slot goes to the
    destructor when the record is [Global]; the payload of the shared slot
    goes to it at most once, as [Common] when the record is [Common] and
    else as [Extern] when it is [Extern]; a payload in a slot whose
    visibility bit is not set is not destroyed. *)
Theorem symrec_delete_one_releases (sym : symrec) (st : state) (o : objfmt) :
  cur_objfmt st = Some o →
  (type sym = SYM_EQU → ∃ e, value sym = ValExpn e) →
  ∃ rel st',
    symrec_delete_one sym st = Some (Returns rel st')
    ∧ sym_table st' = sym_table st
    ∧ errwarns st' = errwarns st
    ∧ List.filter is_xfree_sym rel = [XfreeSym sym]
    ∧ XfreeName (name sym) ∈ rel
    ∧ (∀ e, ExprDelete e ∈ rel ↔ type sym = SYM_EQU ∧ value sym = ValExpn e)
    ∧ data_deleted st'
      = data_deleted st
        ++ match of_data_vis_g sym with
           | Some g =>
               if negb (Z.land (visibility sym) SYM_GLOBAL =? 0)
               then [(SYM_GLOBAL, g)] else []
           | None => []
           end
        ++ match of_data_vis_ce sym with
           | Some c =>
               if negb (Z.land (visibility sym) SYM_COMMON =? 0)
               then [(SYM_COMMON, c)]
               else if negb (Z.land (visibility sym) SYM_EXTERN =? 0)
                    then [(SYM_EXTERN, c)] else []
           | None => []
           end
    ∧ rel = XfreeName (name sym) :: expr_released sym ++ [XfreeSym sym]
    ∧ List.filter is_xfree_name rel = [XfreeName (name sym)]
    ∧ (length (expr_released sym) ≤ 1)%nat.
Proof.
  intros Ho Hv. unfold symrec_delete_one, value_expn, expr_released.
  rewrite Ho. rewrite <- payloads_destroyed_flat.
  destruct (type sym) eqn:Et.
  - eexists _, _. split; [reflexivity|]. cbn.
    split; [done|]. split; [done|]. split; [done|].
    split; [apply list_elem_of_here|].
    split; [|repeat split; cbn; lia].
    intros e. rewrite !elem_of_cons, elem_of_nil. split.
    + intros [?|[?|?]]; done.
    + by intros [? _].
  - destruct (Hv eq_refl) as (e0 & Ev). rewrite Ev.
    eexists _, _. split; [reflexivity|]. cbn.
    split; [done|]. split; [done|]. split; [done|].
    split; [apply list_elem_of_here|].
    split; [|repeat split; cbn; lia].
    intros e. rewrite !elem_of_cons, elem_of_nil. split.
    + intros [?|[?|[?|?]]]; try done. split; [done|congruence].
    + intros [_ [= ->]]. auto.
  - eexists _, _. split; [reflexivity|]. cbn.
    split; [done|]. split; [done|]. split; [done|].
    split; [apply list_elem_of_here|].
    split; [|repeat split; cbn; lia].
    intros e. rewrite !elem_of_cons, elem_of_nil. split.
    + intros [?|[?|?]]; done.
    + by intros [? _].
Qed.

Lemma symrec_delete_one_returns (sym : symrec) (st : state) (o : objfmt) :
  cur_objfmt st = Some o →
  (type sym = SYM_EQU → ∃ e, value sym = ValExpn e) →
  ∃ rel,
    symrec_delete_one sym st
    = Some (Returns rel
              (set_data_deleted st
                 (data_deleted st ++ payloads_destroyed sym)))
    ∧ List.filter is_xfree_sym rel = [XfreeSym sym].
Proof.
  intros Ho Hv. unfold symrec_delete_one, value_expn. rewrite Ho.
  destruct (type sym) eqn:Et; [by eexists| |by eexists].
  destruct (Hv eq_refl) as (e0 & Ev). rewrite Ev. by eexists.
Qed.

Lemma ternary_cleanup_from_returns (o : objfmt) (syms : list symrec) :
  ∀ st,
    cur_objfmt st = Some o →
    (∀ sym, sym ∈ syms → type sym = SYM_EQU → ∃ e, value sym = ValExpn e) →
    ∃ rel,
      ternary_cleanup_from syms st
      = Some (Returns rel
                (set_data_deleted st
                   (data_deleted st ++ flat_map payloads_destroyed syms)))
      ∧ List.filter is_xfree_sym rel = map XfreeSym syms.
Proof.
  induction syms as [|sym syms IH]; intros st Ho Hv.
  - exists []. cbn. rewrite app_nil_r. split; [|done]. by destruct st.
  - destruct (symrec_delete_one_returns sym st o Ho) as (rel1 & E1 & F1).
    { apply Hv. constructor. }
    destruct (IH (set_data_deleted st
                    (data_deleted st ++ payloads_destroyed sym)))
      as (rel2 & E2 & F2); [done| |].
    { intros s' Hs'. apply Hv. by constructor. }
    exists (rel1 ++ rel2). cbn [ternary_cleanup_from]. rewrite E1, E2.
    split.
    + cbn. by rewrite <- app_assoc.
    + by rewrite List.filter_app, F1, F2.
Qed.

Lemma finalize_reports_empty (f0 : option string) :
  finalize_reports (∅ : gmap string symrec) f0 = [].
Proof.
  unfold finalize_reports, undefined_records, table_records.
  rewrite map_to_list_empty. cbn. by rewrite Z.ltb_irrefl.
Qed.

(** X19: under an object format, on a table whose [Equ] records all hold
    an expression, [symrec_delete_all] returns with the table empty,
    having freed every record of the table exactly once, as many as the
    table held, and handed the live payloads to the destructor.
    Afterwards a traversal visits nothing, the finalize pass reports
    nothing, and a second [symrec_delete_all] releases nothing. *)
Theorem symrec_delete_all_empties (st : state) (o : objfmt) :
  cur_objfmt st = Some o →
  table_equ_ok (sym_table st) →
  ∃ rel st',
    symrec_delete_all st = Some (Returns rel st')
    ∧ sym_table st' = ∅
    ∧ List.filter is_xfree_sym rel
      = map XfreeSym (table_records (sym_table st))
    ∧ length (List.filter is_xfree_sym rel) = size (sym_table st)
    ∧ data_deleted st'
      = data_deleted st
        ++ flat_map payloads_destroyed (table_records (sym_table st))
    ∧ errwarns st' = errwarns st
    ∧ (∀ (d : option unit) func, symrec_traverse d func st' = (1, st'))
    ∧ errwarns (symrec_parser_finalize st') = errwarns st'
    ∧ symrec_delete_all st' = Some (Returns [] st').
Proof.
  intros Ho Hok.
  destruct (ternary_cleanup_from_returns o (table_records (sym_table st))
              st Ho) as (rel & E & F).
  { intros sym Hin. apply elem_of_table_records in Hin as (k & Hk).
    by eapply Hok. }
  unfold symrec_delete_all at 1. unfold ternary_cleanup. rewrite E.
  eexists _, _. split; [reflexivity|]. cbn.
  split; [done|]. split; [done|]. split.
  { rewrite F, length_map. unfold table_records.
    by rewrite length_fmap, length_map_to_list. }
  split; [done|]. split; [done|]. split.
  { intros d func. unfold symrec_traverse, ternary_traverse. cbn.
    by rewrite map_to_list_empty. }
  split.
  { rewrite symrec_parser_finalize_errwarns. cbn.
    fold (finalize_reports (∅ : gmap string symrec)
            (firstundef_filename st)).
    by rewrite finalize_reports_empty, app_nil_r. }
  unfold symrec_delete_all, ternary_cleanup, table_records. cbn.
  by rewrite map_to_list_empty.
Qed.

Lemma earliest_file (syms : list symrec) :
  ∀ l f f',
    (earliest syms l f).1 = (earliest syms l f').1
    ∧ ((earliest syms l f).1 < l →
       (earliest syms l f).2 = (earliest syms l f').2).
Proof.
  induction syms as [|sym syms IH]; intros l f f'; cbn.
  - split; [done|lia].
  - destruct (Z.ltb_spec (line sym) l) as [Hlt|Hge]; [done|].
    apply IH.
Qed.

Lemma finalize_reports_static (t : gmap string symrec)
    (f f' : option string) :
  finalize_reports t f = finalize_reports t f'.
Proof.
  unfold finalize_reports. cbn zeta. f_equal.
  destruct (earliest_file (undefined_records t) ULONG_MAX f f') as [E1 E2].
  rewrite <- E1.
  destruct (Z.ltb_spec (earliest (undefined_records t) ULONG_MAX f).1
              ULONG_MAX) as [Hlt|Hge]; [|done].
  by rewrite E2.
Qed.

Lemma symrec_parser_finalize_table (st : state) :
  sym_table (symrec_parser_finalize st) = sym_table st
  ∧ data_deleted (symrec_parser_finalize st) = data_deleted st
  ∧ in_filename (symrec_parser_finalize st) = in_filename st
  ∧ line_number (symrec_parser_finalize st) = line_number st.
Proof.
  unfold symrec_parser_finalize, symrec_traverse, ternary_traverse.
  rewrite checksym_traverse. cbn.
  by destruct (_ <? ULONG_MAX).
Qed.

(** X20: the finalize pass can be repeated.  It changes neither the
    table, nor the source position, nor the destructor calls, and what
    it reports does not depend on what an earlier pass left in
    [firstundef_line] and [firstundef_filename]: a second pass adds the
    reports of the first once more. *)
Theorem symrec_parser_finalize_repeat (st : state) :
  sym_table (symrec_parser_finalize st) = sym_table st
  ∧ data_deleted (symrec_parser_finalize st) = data_deleted st
  ∧ in_filename (symrec_parser_finalize st) = in_filename st
  ∧ line_number (symrec_parser_finalize st) = line_number st
  ∧ ∃ reports,
      errwarns (symrec_parser_finalize st) = errwarns st ++ reports
      ∧ errwarns (symrec_parser_finalize (symrec_parser_finalize st))
        = errwarns st ++ reports ++ reports.
Proof.
  destruct (symrec_parser_finalize_table st) as (Ht & Hd & Hf & Hl).
  split; [done|]. split; [done|]. split; [done|]. split; [done|].
  exists (finalize_reports (sym_table st) (firstundef_filename st)).
  pose proof (symrec_parser_finalize_errwarns st) as E1.
  pose proof (symrec_parser_finalize_errwarns (symrec_parser_finalize st))
    as E2.
  fold (finalize_reports (sym_table st) (firstundef_filename st)) in E1.
  fold (finalize_reports (sym_table (symrec_parser_finalize st))
          (firstundef_filename (symrec_parser_finalize st))) in E2.
  split; [done|].
  rewrite E2, E1, Ht, <- app_assoc. f_equal. f_equal.
  apply finalize_reports_static.
Qed.

(** X21: a payload given to the first declaration of a new name as
    [Global], [Common] or [Extern] is stored, not destroyed, and
    [symrec_delete_one] on the record hands it to the destructor exactly
    once, under the visibility of the declaration. *)
Theorem declared_payload_destroyed_once (n : string) (vis : Z)
    (x : of_data) (st st2 : state) (o : objfmt) :
  cur_objfmt st = Some o →
  cur_objfmt st2 = Some o →
  sym_table st !! n = None →
  vis = SYM_GLOBAL ∨ vis = SYM_COMMON ∨ vis = SYM_EXTERN →
  ∃ r st1,
    symrec_declare n vis (Some x) st = Returns r st1
    ∧ sym_table st1 !! n = Some r
    ∧ data_deleted st1 = data_deleted st
    ∧ ∃ rel st3,
        symrec_delete_one r st2 = Some (Returns rel st3)
        ∧ data_deleted st3 = data_deleted st2 ++ [(vis, x)].
Proof.
  intros Ho Ho2 Hn Hv.
  assert (declare_conflict (entry n st) vis = false) as Hc
    by (by rewrite (entry_fresh _ _ Hn)).
  rewrite (symrec_declare_accept _ _ _ _ _ Ho Hc), (entry_fresh _ _ Hn).
  destruct Hv as [-> | [-> | ->]]; cbn;
    eexists _, _; (split; [reflexivity|]); cbn;
    rewrite lookup_insert_eq; (split; [done|]); (split; [done|]);
    unfold symrec_delete_one; cbn; rewrite Ho2;
    eexists _, _; (split; [reflexivity|]); done.
Qed.

End SymrecMore.

(** *** The further properties on the demo instance *)

Section MoreDemo.
Existing Instance demo.

Lemma imm_new_int_len_witness :
  0 ≤ 300 ∧ Immval.len (Immval.imm_new_int (X := demo) DNum 300) = 2.
Proof.
  split; [lia|].
  destruct (imm_new_int_len (X := demo) DNum 300) as (_ & H & _); [lia|].
  apply H. lia.
Defined.

Lemma bc_set_multiple_all_nests_witness :
  Bytecode.multiple
    (Bytecode.bc_set_multiple demo_reserve_bc (Some (DNum 3)))
  = Some (DNum 3)
  ∧ Bytecode.multiple
      (Bytecode.bc_set_multiple_all
         (Bytecode.bc_set_multiple demo_reserve_bc (Some (DNum 3)))
         [Some (DNum 5); None])
    = Some (DTree (DTree (DNum 3) (DNum 5)) DNull).
Proof.
  split; [reflexivity|].
  rewrite (bc_set_multiple_all_nests (X := demo) [Some (DNum 5); None]
             (Bytecode.bc_set_multiple demo_reserve_bc (Some (DNum 3)))
             (DNum 3) eq_refl).
  reflexivity.
Defined.

Lemma bcs_delete_builtin_witness :
  forallb Bytecode.builtin_wf [demo_data_bc; demo_reserve_bc] = true
  ∧ List.filter Bytecode.is_xfree_bytecode
      (flat_map Bytecode.builtin_releases [demo_data_bc; demo_reserve_bc])
    = [Bytecode.XfreeBytecode demo_data_bc;
       Bytecode.XfreeBytecode demo_reserve_bc].
Proof.
  split; [reflexivity|].
  destruct (bcs_delete_builtin (X := demo) demo_arch
              (fun _ => Bytecode.Ok [])
              [demo_data_bc; demo_reserve_bc] eq_refl) as (_ & H & _).
  exact H.
Defined.

Lemma symrec_define_label_out_of_table_witness :
  Symrec.cur_objfmt demo_start = Some "dbg"
  ∧ (Symrec.symrec_define_label (X := demo) "tmp" None None false demo_start).2
    = demo_start.
Proof.
  split; [reflexivity|].
  destruct (symrec_define_label_out_of_table (X := demo) "tmp" None None
              demo_start demo_start "dbg" eq_refl) as (H & _).
  exact H.
Defined.

Lemma do_calls_records_persist_witness :
  Symrec.sym_table (demo_run demo_equ_once) !! "x"
  = Some {| Symrec.name := "x"; Symrec.type := Symrec.SYM_EQU;
            Symrec.status := 6; Symrec.visibility := 0;
            Symrec.filename := Some "a.asm"; Symrec.line := 3;
            Symrec.value := Symrec.ValExpn (Some (DNum 1));
            Symrec.of_data_vis_ce := None;
            Symrec.of_data_vis_g := None |}
  ∧ ∃ r',
      Symrec.sym_table
        (Symrec.final_state
           (Symrec.do_calls
              [Symrec.Use "x"; Symrec.Decl (X := demo) "x" Symrec.SYM_GLOBAL None]
              (demo_run demo_equ_once))) !! "x" = Some r'
      ∧ Symrec.type r' = Symrec.SYM_EQU.
Proof.
  split; [reflexivity|].
  destruct (do_calls_records_persist (X := demo)
              [Symrec.Use "x"; Symrec.Decl (X := demo) "x" Symrec.SYM_GLOBAL None]
              (demo_run demo_equ_once) "x" _ eq_refl)
    as (r' & H & _ & _ & _ & _ & Ht).
  exists r'. split; [exact H|]. apply Ht. discriminate.
Defined.

Lemma symrec_delete_spares_table_witness :
  Symrec.table_status_ok (Symrec.sym_table demo_start)
  ∧ Symrec.sym_table
      (Symrec.final_state (Symrec.do_calls demo_uses demo_start)) !! "foo"
    = Some {| Symrec.name := "foo"; Symrec.type := Symrec.SYM_UNKNOWN;
              Symrec.status := 1; Symrec.visibility := 0;
              Symrec.filename := Some "a.asm"; Symrec.line := 5;
              Symrec.value := Symrec.ValRaw;
              Symrec.of_data_vis_ce := None;
              Symrec.of_data_vis_g := None |}
  ∧ Symrec.symrec_delete
      {| Symrec.name := "foo"; Symrec.type := Symrec.SYM_UNKNOWN;
         Symrec.status := 1; Symrec.visibility := 0;
         Symrec.filename := Some "a.asm"; Symrec.line := 5;
         Symrec.value := Symrec.ValRaw;
         Symrec.of_data_vis_ce := None;
         Symrec.of_data_vis_g := None |} demo_start
    = Some (Symrec.Returns [] demo_start).
Proof.
  assert (Symrec.table_status_ok (Symrec.sym_table demo_start)) as Hok.
  { intros k sym H. cbn in H. rewrite lookup_empty in H. discriminate. }
  split; [exact Hok|]. split; [reflexivity|].
  destruct (symrec_delete_spares_table (X := demo) demo_uses demo_start
              demo_start "foo" _ Hok eq_refl) as (_ & H).
  exact H.
Defined.

Lemma defined_never_reported_witness :
  Symrec.names_ok (Symrec.sym_table demo_start)
  ∧ Symrec.sym_table (demo_run demo_extern) !! "ext"
    = Some {| Symrec.name := "ext"; Symrec.type := Symrec.SYM_UNKNOWN;
              Symrec.status := 2; Symrec.visibility := 4;
              Symrec.filename := Some "a.asm"; Symrec.line := 2;
              Symrec.value := Symrec.ValRaw;
              Symrec.of_data_vis_ce := Some 4;
              Symrec.of_data_vis_g := None |}
  ∧ List.filter (Symrec.is_undefined_report "ext")
      (Symrec.finalize_reports
         (Symrec.sym_table
            (Symrec.final_state
               (Symrec.do_calls [Symrec.Use "ext"] (demo_run demo_extern))))
         None)
    = [].
Proof.
  assert (Symrec.names_ok (Symrec.sym_table demo_start)) as Hok.
  { intros k sym H. cbn in H. rewrite lookup_empty in H. discriminate. }
  split; [exact Hok|]. split; [reflexivity|].
  eapply (defined_never_reported (X := demo) [Symrec.Use "ext"]
            (demo_run demo_extern) "ext").
  - apply (do_calls_names_ok demo_extern demo_start Hok).
  - reflexivity.
  - discriminate.
Defined.

Lemma symrec_get_equ_round_trip_witness :
  Z.land (Symrec.status (Symrec.entry "x" demo_start)) Symrec.SYM_DEFINED = 0
  ∧ ∃ r,
      Symrec.sym_table
        (Symrec.final_state
           (Symrec.do_calls
              [Symrec.AtLine (Some "a.asm") 8; Symrec.Use "x"]
              (Symrec.symrec_define_equ (X := demo) "x" (Some (DNum 1)) demo_start).2))
        !! "x" = Some r
      ∧ Symrec.symrec_get_equ r = Some (Some (DNum 1)).
Proof.
  split; [reflexivity|].
  destruct (symrec_get_equ_round_trip (X := demo) "x" (Some (DNum 1))
              demo_start
              (Symrec.final_state
                 (Symrec.do_calls
                    [Symrec.AtLine (Some "a.asm") 8; Symrec.Use "x"]
                    (Symrec.symrec_define_equ (X := demo) "x" (Some (DNum 1))
                       demo_start).2))
              [Symrec.AtLine (Some "a.asm") 8; Symrec.Use "x"]
              eq_refl eq_refl eq_refl) as (_ & r & Hr & Hg & _).
  exists r. split; [exact Hr|exact Hg].
Defined.

Lemma symrec_define_after_declare_witness :
  Symrec.cur_objfmt demo_start = Some "dbg"
  ∧ Symrec.sym_table demo_start !! "ext" = None
  ∧ Symrec.type
      (Symrec.symrec_define_equ (X := demo) "ext" (Some (DNum 1))
         (Symrec.set_location
            (Symrec.final_state
               (Symrec.symrec_declare (X := demo) "ext" Symrec.SYM_EXTERN (Some 4)
                  demo_start))
            (Some "a.asm") 6)).1
    = Symrec.SYM_UNKNOWN.
Proof.
  split; [reflexivity|]. split; [reflexivity|].
  destruct (symrec_define_after_declare (X := demo) "ext" Symrec.SYM_EXTERN
              (Some 4) (Some (DNum 1)) None None demo_start (Some "a.asm") 6
              "dbg" eq_refl eq_refl (or_intror eq_refl)) as (_ & H & _).
  exact H.
Defined.

Lemma symrec_declare_after_define_witness :
  Symrec.cur_objfmt demo_start = Some "dbg"
  ∧ Z.land (Symrec.status (Symrec.entry "x" demo_start)) Symrec.SYM_DEFINED
    = 0
  ∧ Z.land (Symrec.visibility (Symrec.entry "x" demo_start))
      Symrec.SYM_EXTERN = 0
  ∧ ∃ st2,
      Symrec.symrec_declare (X := demo) "x" Symrec.SYM_GLOBAL (Some 9)
        (Symrec.set_location
           (Symrec.symrec_define_equ (X := demo) "x" (Some (DNum 1)) demo_start).2
           (Some "a.asm") 6)
      = Symrec.Returns
          (Symrec.symrec_define_equ (X := demo) "x" (Some (DNum 1)) demo_start).1 st2
      ∧ Symrec.data_deleted st2 = [(Symrec.SYM_GLOBAL, 9)].
Proof.
  split; [reflexivity|]. split; [reflexivity|]. split; [reflexivity|].
  destruct (symrec_declare_after_define (X := demo) "x" (Some (DNum 1))
              None None Symrec.SYM_GLOBAL (Some 9) demo_start
              (Some "a.asm") 6 "dbg" eq_refl eq_refl eq_refl
              (Symrec.symrec_define_equ (X := demo) "x" (Some (DNum 1)) demo_start)
              (or_introl eq_refl))
    as (st2 & E & _ & _ & _ & Hd).
  exists st2. split; [exact E|exact Hd].
Defined.

Lemma symrec_global_then_label_witness :
  Symrec.cur_objfmt demo_start = Some "dbg"
  ∧ Symrec.sym_table demo_start !! "main" = None
  ∧ ∃ r1 st1,
      Symrec.symrec_declare (X := demo) "main" Symrec.SYM_GLOBAL (Some 9) demo_start
      = Symrec.Returns r1 st1
      ∧ Symrec.type
          (Symrec.symrec_define_label (X := demo) "main" (Some ".text") None true
             (Symrec.set_location st1 (Some "a.asm") 6)).1
        = Symrec.SYM_LABEL.
Proof.
  split; [reflexivity|]. split; [reflexivity|].
  destruct (symrec_global_then_label (X := demo) "main" (Some 9)
              (Some ".text") None demo_start (Some "a.asm") 6 "dbg"
              eq_refl eq_refl) as (r1 & st1 & E & H).
  cbv zeta in H. destruct H as (_ & Ht & _).
  exists r1, st1. split; [exact E|exact Ht].
Defined.

(** [demo_common_extern]: only the shared slot is destroyed, once, as
    [Common]. *)
Lemma symrec_delete_one_releases_witness :
  Symrec.cur_objfmt demo_start = Some "dbg"
  ∧ ∃ rel st',
      Symrec.symrec_delete_one demo_common_extern demo_start
      = Some (Symrec.Returns rel st')
      ∧ Symrec.data_deleted st' = [(Symrec.SYM_COMMON, 4)].
Proof.
  split; [reflexivity|].
  destruct (symrec_delete_one_releases (X := demo) demo_common_extern
              demo_start "dbg" eq_refl)
    as (rel & st' & E & _ & _ & _ & _ & _ & Hd & _); [discriminate|].
  exists rel, st'. split; [exact E|exact Hd].
Defined.

Lemma symrec_delete_all_empties_witness :
  Symrec.cur_objfmt (demo_run demo_equ_once) = Some "dbg"
  ∧ Symrec.table_equ_ok (Symrec.sym_table (demo_run demo_equ_once))
  ∧ ∃ rel st',
      Symrec.symrec_delete_all (demo_run demo_equ_once)
      = Some (Symrec.Returns rel st')
      ∧ Symrec.sym_table st' = ∅
      ∧ length (List.filter Symrec.is_xfree_sym rel) = 1%nat.
Proof.
  assert (Symrec.table_equ_ok (Symrec.sym_table (demo_run demo_equ_once)))
    as Hok.
  { intros k sym H _.
    change (Symrec.sym_table (demo_run demo_equ_once))
      with (<["x" := {| Symrec.name := "x"; Symrec.type := Symrec.SYM_EQU;
                        Symrec.status := 6; Symrec.visibility := 0;
                        Symrec.filename := Some "a.asm"; Symrec.line := 3;
                        Symrec.value := Symrec.ValExpn (Some (DNum 1));
                        Symrec.of_data_vis_ce := None;
                        Symrec.of_data_vis_g := None |}]>
              (∅ : gmap string (Symrec.symrec (X := demo)))) in H.
    apply lookup_insert_Some in H as [[_ <-]|[_ H]].
    - by eexists.
    - rewrite lookup_empty in H. discriminate. }
  split; [reflexivity|]. split; [exact Hok|].
  destruct (symrec_delete_all_empties (X := demo) (demo_run demo_equ_once)
              "dbg" eq_refl Hok) as (rel & st' & E & Ht & _ & Hl & _).
  exists rel, st'. split; [exact E|]. split; [exact Ht|exact Hl].
Defined.

Lemma declared_payload_destroyed_once_witness :
  Symrec.cur_objfmt demo_start = Some "dbg"
  ∧ Symrec.sym_table demo_start !! "ext" = None
  ∧ ∃ r st1,
      Symrec.symrec_declare (X := demo) "ext" Symrec.SYM_EXTERN (Some 4) demo_start
      = Symrec.Returns r st1
      ∧ ∃ rel st3,
          Symrec.symrec_delete_one (X := demo) r demo_start
          = Some (Symrec.Returns rel st3)
          ∧ Symrec.data_deleted st3 = [(Symrec.SYM_EXTERN, 4)].
Proof.
  split; [reflexivity|]. split; [reflexivity|].
  destruct (declared_payload_destroyed_once (X := demo) "ext"
              Symrec.SYM_EXTERN 4 demo_start demo_start "dbg" eq_refl eq_refl
              eq_refl (or_intror (or_intror eq_refl)))
    as (r & st1 & E & _ & _ & rel & st3 & E3 & Hd).
  exists r, st1. split; [exact E|]. exists rel, st3. split; [exact E3|exact Hd].
Defined.


(** C9, counterexample: [foo] is in the table, recorded on line 5;
    [declare(foo, Local, NULL)] on line 9 returns, and the record it
    leaves differs from the stored one in its line, which is now 9: the
    call has done more than or the visibility in. *)
Lemma symrec_declare_local_moves_line :
  Symrec.sym_table (demo_run demo_use_foo) !! "foo"
  = Some {| Symrec.name := "foo"; Symrec.type := Symrec.SYM_UNKNOWN;
            Symrec.status := 1; Symrec.visibility := 0;
            Symrec.filename := Some "a.asm"; Symrec.line := 5;
            Symrec.value := Symrec.ValRaw;
            Symrec.of_data_vis_ce := None;
            Symrec.of_data_vis_g := None |}
  ∧ ∃ st',
      Symrec.symrec_declare (X := demo) "foo" Symrec.SYM_LOCAL None
        (demo_run demo_use_foo)
      = Symrec.Returns
          {| Symrec.name := "foo"; Symrec.type := Symrec.SYM_UNKNOWN;
             Symrec.status := 1; Symrec.visibility := 0;
             Symrec.filename := Some "a.asm"; Symrec.line := 9;
             Symrec.value := Symrec.ValRaw;
             Symrec.of_data_vis_ce := None;
             Symrec.of_data_vis_g := None |} st'
      ∧ Symrec.sym_table st' !! "foo"
        ≠ Symrec.sym_table (demo_run demo_use_foo) !! "foo".
Proof.
  split; [reflexivity|]. eexists. split; [reflexivity|].
  vm_compute. discriminate.
Qed.

End MoreDemo.
